(** * bobg/retry: the Tryer retry loop and its delay calculator

    A shallow embedding of [retry.go]: [Tryer.Try], [Tryer.calcDelay],
    [Tryer.randFloat], [Tryer.after] and the three error wrappers.

    - Go's [int] and [time.Duration] are 64-bit two's complement integers:
      they are modelled as [Z] with the wrap-around written out.
    - Go's [float64] is IEEE 754 binary64: it is modelled by Rocq's
      primitive floats, which are the same format with the same
      round-to-nearest-even operations.
    - The collaborators that live outside the repository (the retried
      function, the context, the timer channel, [math.Pow], the global
      random source) are explicit parameters.

    The first part of the file holds the definitions, the second part the
    lemmas and theorems. *)

From Stdlib Require Import ZArith List Bool Lia Floats.
From Stdlib Require String.
From Stdlib Require Uint63.
Import ListNotations.
Open Scope Z_scope.

Set Warnings "-inexact-float".

(** * Part I: definitions *)

(** ** 64-bit integers *)

Module Int64.

Definition min_int : Z := - 2 ^ 63.
Definition max_int : Z := 2 ^ 63 - 1.

Definition in_range (z : Z) : Prop := min_int <= z <= max_int.

(** Two's complement wrap-around of an integer result. *)
Definition wrap (z : Z) : Z := (z + 2 ^ 63) mod 2 ^ 64 - 2 ^ 63.

End Int64.

(** ** float64 and its conversions *)

Module F64.

(** [float64(z)] for an integer [z]: the nearest binary64 value, ties to
    even. *)
Definition of_int (z : Z) : float :=
  SF2Prim (binary_normalize prec emax z 0 false).

(** The integer part of a finite float (truncation toward zero), [None]
    for NaN and the infinities. *)
Definition trunc (x : float) : option Z :=
  match Prim2SF x with
  | S754_zero _ => Some 0
  | S754_finite s m e =>
      let a := if 0 <=? e then Z.pos m * 2 ^ e
               else Z.shiftr (Z.pos m) (- e) in
      Some (if s then - a else a)
  | S754_infinity _ | S754_nan => None
  end.

(** [int64(x)], as [time.Duration(x)] does it: truncation toward zero when
    the result fits; otherwise Go leaves the value to the implementation,
    here some int64 chosen by the parameter [out_of_range]. *)
Definition to_int (out_of_range : float -> Z) (x : float) : Z :=
  match trunc x with
  | Some z =>
      if (Int64.min_int <=? z) && (z <=? Int64.max_int) then z
      else Int64.wrap (out_of_range x)
  | None => Int64.wrap (out_of_range x)
  end.

End F64.

(** ** What the package takes from outside the repository *)

Record Env : Type := {
  (** [math.Pow] *)
  math_Pow : float -> float -> float;
  (** the value of a float64 to int64 conversion whose result does not fit *)
  out_of_range : float -> Z;
  (** [rand.Float64]: the value of its k-th call during a run *)
  rand_Float64 : nat -> float
}.

Section Retry.

(** Go's [error] values. *)
Variable error : Type.

(** ** The Tryer struct

    [IsRetryable] and [Rand] are [None] when the Go field is nil.  [Rand]
    is a closure that may carry state: [Rand k] is the value of its k-th
    call during a run.  The [After] field only supplies the channel that
    [Try] receives from, so it is part of [select_] below. *)
Record Tryer : Type := {
  Max : Z;
  Delay : Z;
  Jitter : Z;
  Scale : float;
  MaxDelay : Z;
  IsRetryable : option (error -> bool);
  Rand : option (nat -> float)
}.

(** ** Errors returned by Try *)
Inductive result : Type :=
| Nil
| UnretryableError (Err : error)
| MaxTriesError (Err : error)
| ContextError (Err : error).

Definition Unwrap (r : result) : option error :=
  match r with
  | Nil => None
  | UnretryableError e | MaxTriesError e | ContextError e => Some e
  end.

(** ** One call of Try: the function and the context

    [f n] is what the retried function returns when called with attempt
    number [n] ([None] is nil).  [select_ n d] is the case that the
    [select] statement takes in the wait that follows attempt [n], where
    [d] is the delay handed to [tr.after]: either the context is done,
    with [ctx.Err()], or the timer channel delivers.  The statement has
    no default case: when neither channel ever delivers it blocks for
    ever, which is [Blocked]. *)
Inductive selected : Type :=
| CtxDone (cause : error)
| TimerFired
| Blocked.

Record Run : Type := {
  f : Z -> option error;
  select_ : Z -> Z -> selected
}.

(** ** Effects: the calls Try makes, in order *)
Inductive event : Type :=
| EvCall (n : Z)
| EvIsRetryable (e : error)
| EvRand
| EvAfter (d : Z).

(** A computation that draws random numbers (the state is the number of
    draws so far) and logs the calls it makes. *)
Definition Eff (A : Type) : Type := nat -> A * nat * list event.

Definition ret {A} (a : A) : Eff A := fun k => (a, k, []).

Definition bind {A B} (m : Eff A) (g : A -> Eff B) : Eff B :=
  fun k =>
    let '(a, k1, l1) := m k in
    let '(b, k2, l2) := g a k1 in
    (b, k2, l1 ++ l2).

Definition log (e : event) : Eff unit := fun k => (tt, k, [e]).

Notation "x <- m ;; g" := (bind m (fun x => g))
  (at level 61, m at next level, right associativity).
Notation "m ;;; g" := (bind m (fun _ => g))
  (at level 61, right associativity).

Variable env : Env.

(** ** randFloat *)
Definition randFloat (tr : Tryer) : Eff float :=
  fun k =>
    let g := match Rand tr with
             | Some g => g
             | None => rand_Float64 env
             end in
    (g k, S k, [EvRand]).

(** ** calcDelay *)
Definition calcDelay (tr : Tryer) (n : Z) : Eff Z :=
  let delay := Delay tr in
  let delay :=
    if (0 <? Scale tr)%float then
      let scale :=
        math_Pow env (1 + Scale tr)%float (F64.of_int (Int64.wrap (n - 1))) in
      F64.to_int (out_of_range env) (F64.of_int delay * scale)%float
    else delay in
  let delay :=
    if (MaxDelay tr >? 0) && (delay >? MaxDelay tr) then MaxDelay tr
    else delay in
  let jitter := Jitter tr in
  let jitter := if jitter >? delay then delay else jitter in
  if jitter >? 0 then
    r <- randFloat tr ;;
    let rand := (2 * r - 1)%float in
    let jitter := F64.to_int (out_of_range env) (F64.of_int jitter * rand)%float in
    ret (Int64.wrap (delay + jitter))
  else ret delay.

(** ** after: the timer factory is called with the delay *)
Definition after (d : Z) : Eff unit := log (EvAfter d).

(** [tr.IsRetryable != nil && !tr.IsRetryable(err)]: the predicate is
    called only when it is set. *)
Definition unretryable (tr : Tryer) (err : error) : Eff bool :=
  match IsRetryable tr with
  | Some p => log (EvIsRetryable err) ;;; ret (negb (p err))
  | None => ret false
  end.

(** ** Try

    One iteration of the [for] loop either returns, or goes round again
    with the next attempt number, or hangs in its [select] statement. *)
Inductive iteration : Type :=
| Return (r : result)
| Again (n : Z)
| Hangs.

Definition body (tr : Tryer) (run : Run) (n : Z) : Eff iteration :=
  log (EvCall n) ;;;
  match f run n with
  | None => ret (Return Nil)
  | Some err =>
      let n' := Int64.wrap (n + 1) in
      if (Max tr >=? 0) && (n' >=? Max tr) then
        ret (Return (MaxTriesError err))
      else
        stop <- unretryable tr err ;;
        if (stop : bool) then ret (Return (UnretryableError err))
        else
          delay <- calcDelay tr n' ;;
          after delay ;;;
          match select_ run n delay with
          | CtxDone cause => ret (Return (ContextError cause))
          | TimerFired => ret (Again n')
          | Blocked => ret Hangs
          end
  end.

(** The loop, with [fuel] bounding the number of iterations: [None] when
    Try has not returned within [fuel] iterations, because the fuel runs
    out or because an iteration hangs. *)
Fixpoint Try_from (fuel : nat) (tr : Tryer) (run : Run) (n : Z) (k : nat)
  : option (result * list event) :=
  match fuel with
  | O => None
  | S fuel' =>
      let '(it, k1, l1) := body tr run n k in
      match it with
      | Return r => Some (r, l1)
      | Again n' =>
          match Try_from fuel' tr run n' k1 with
          | Some (r, l2) => Some (r, l1 ++ l2)
          | None => None
          end
      | Hangs => None
      end
  end.

Definition Try (fuel : nat) (tr : Tryer) (run : Run)
  : option (result * list event) :=
  Try_from fuel tr run 0 0%nat.

(** ** Reading a trace *)

(** The attempt numbers the function was called with, in order. *)
Fixpoint calls (l : list event) : list Z :=
  match l with
  | [] => []
  | EvCall n :: l' => n :: calls l'
  | _ :: l' => calls l'
  end.

(** The errors handed to IsRetryable, in order. *)
Fixpoint consulted (l : list event) : list error :=
  match l with
  | [] => []
  | EvIsRetryable e :: l' => e :: consulted l'
  | _ :: l' => consulted l'
  end.

(** The attempt numbers [0, 1, ..., i-1]. *)
Definition attempts (i : nat) : list Z := map Z.of_nat (seq 0 i).

End Retry.

Arguments Max {error} t.
Arguments Delay {error} t.
Arguments Jitter {error} t.
Arguments Scale {error} t.
Arguments MaxDelay {error} t.
Arguments IsRetryable {error} t.
Arguments Rand {error} t.
Arguments f {error} r n.
Arguments select_ {error} r n d.
Arguments Nil {error}.
Arguments UnretryableError {error} Err.
Arguments MaxTriesError {error} Err.
Arguments ContextError {error} Err.
Arguments CtxDone {error} cause.
Arguments EvIsRetryable {error} e.
Arguments TimerFired {error}.
Arguments Blocked {error}.
Arguments EvRand {error}.
Arguments EvCall {error} n.
Arguments EvAfter {error} d.
Arguments Return {error} r.
Arguments Again {error} n.
Arguments Hangs {error}.
Arguments ret {error A} a.
Arguments bind {error A B} m g.
Arguments log {error} e.
Arguments randFloat {error} env tr.
Arguments calcDelay {error} env tr n.
Arguments after {error} d.
Arguments unretryable {error} tr err.
Arguments body {error} env tr run n.
Arguments Try_from {error} env fuel tr run n k.
Arguments Try {error} env fuel tr run.
Arguments calls {error} l.
Arguments consulted {error} l.
Arguments Unwrap {error} r.

(** ** How a run is described in the statements below *)

Section Describe.

Context {error : Type}.

(** The predicate, when there is one, accepts the error. *)
Definition accepts (tr : Tryer error) (e : error) : bool :=
  match IsRetryable tr with
  | Some p => p e
  | None => true
  end.

(** After [made] attempts the budget allows another one. *)
Definition budget_left (tr : Tryer error) (made : Z) : Prop :=
  Max tr < 0 \/ made < Max tr.

(** Attempt [j] fails with an error the predicate accepts, and the wait
    that follows it ends with the timer, not with the context. *)
Definition fails_then_waits (tr : Tryer error) (run : Run error) (j : Z)
  : Prop :=
  exists e, f run j = Some e /\ accepts tr e = true /\
            forall d, select_ run j d = TimerFired.

(** The errors of the given attempts, in order. *)
Definition errors_of (run : Run error) (l : list Z) : list error :=
  flat_map (fun j => match f run j with Some e => [e] | None => [] end) l.

Definition is_MaxTries (r : result error) : bool :=
  match r with MaxTriesError _ => true | _ => false end.

(** The events of the IsRetryable test on error [e]. *)
Definition asked (tr : Tryer error) (e : error) : list (event error) :=
  match IsRetryable tr with
  | Some _ => [EvIsRetryable e]
  | None => []
  end.

(** The value calcDelay draws when the random source has been called [k]
    times before. *)
Definition drawn (env : Env) (tr : Tryer error) (k : nat) : float :=
  fst (fst (randFloat env tr k)).

(** The delay that calcDelay returns. *)
Definition delay_of (env : Env) (tr : Tryer error) (n : Z) (k : nat) : Z :=
  fst (fst (calcDelay env tr n k)).

(** The steps of calcDelay: the delay after scaling, which is what the
    ceiling is applied to, and the jitter computed from a clamped jitter
    [j] and a random value [r]. *)
Definition scaled_delay (env : Env) (tr : Tryer error) (n : Z) : Z :=
  if (0 <? Scale tr)%float then
    F64.to_int (out_of_range env)
      (F64.of_int (Delay tr) *
       math_Pow env (1 + Scale tr)%float (F64.of_int (Int64.wrap (n - 1))))%float
  else Delay tr.

Definition signed_jitter (env : Env) (j : Z) (r : float) : Z :=
  F64.to_int (out_of_range env) (F64.of_int j * (2 * r - 1))%float.

(** The policy whose delay goes below zero: Delay and Jitter are both
    2^53 + 3 nanoseconds (a little over 104 days), and the random source
    returns 0. *)
Definition long_delay_policy : Tryer error := {|
  Max := 2;
  Delay := 2 ^ 53 + 3;
  Jitter := 2 ^ 53 + 3;
  Scale := 0;
  MaxDelay := 0;
  IsRetryable := None;
  Rand := Some (fun _ => 0%float)
|}.

End Describe.

(** The random source of TestCalcDelay: it hands out the list in order. *)
Definition floats_in_turn (l : list float) : nat -> float :=
  fun k => nth k l 0%float.

(** ** Runs of the loop, as a relation

    [Returns env tr run n k r t]: entered with attempt number [n] and a
    random source that has been called [k] times, the [for] loop of Try
    returns [r] after the events [t].  One constructor per way through the
    loop body that returns or goes round again; a run that hangs in a
    select statement returns nothing. *)

Section Runs.

Context {error : Type}.
Variables (env : Env) (tr : Tryer error) (run : Run error).

Inductive Returns : Z -> nat -> result error -> list (event error) -> Prop :=
| Returns_success n k :
    f run n = None ->
    Returns n k Nil [EvCall n]
| Returns_spent n k e :
    f run n = Some e ->
    0 <= Max tr <= Int64.wrap (n + 1) ->
    Returns n k (MaxTriesError e) [EvCall n]
| Returns_rejected n k e :
    f run n = Some e ->
    budget_left tr (Int64.wrap (n + 1)) ->
    accepts tr e = false ->
    Returns n k (UnretryableError e) [EvCall n; EvIsRetryable e]
| Returns_cancelled n k e d k' w cause :
    f run n = Some e ->
    budget_left tr (Int64.wrap (n + 1)) ->
    accepts tr e = true ->
    calcDelay env tr (Int64.wrap (n + 1)) k = (d, k', w) ->
    select_ run n d = CtxDone cause ->
    Returns n k (ContextError cause)
      (EvCall n :: asked tr e ++ w ++ [EvAfter d])
| Returns_again n k e d k' w r t :
    f run n = Some e ->
    budget_left tr (Int64.wrap (n + 1)) ->
    accepts tr e = true ->
    calcDelay env tr (Int64.wrap (n + 1)) k = (d, k', w) ->
    select_ run n d = TimerFired ->
    Returns (Int64.wrap (n + 1)) k' r t ->
    Returns n k r ((EvCall n :: asked tr e ++ w ++ [EvAfter d]) ++ t).

(** The delays of [c] successive waits, the first one after [n] attempts,
    with a random source that has been called [k] times. *)
Fixpoint expected_delays (c : nat) (n : Z) (k : nat) : list Z :=
  match c with
  | O => []
  | S c' =>
      let '(d, k', _) := calcDelay env tr n k in
      d :: expected_delays c' (Int64.wrap (n + 1)) k'
  end.

End Runs.

(** The delays handed to the timer factory, in order. *)
Fixpoint afters {error : Type} (l : list (event error)) : list Z :=
  match l with
  | [] => []
  | EvAfter d :: l' => d :: afters l'
  | _ :: l' => afters l'
  end.

(** The number of calls of the random source. *)
Fixpoint draws {error : Type} (l : list (event error)) : nat :=
  match l with
  | [] => O
  | EvRand :: l' => S (draws l')
  | _ :: l' => draws l'
  end.

(** The attempt number of the i-th call (counting from 0): it wraps around
    after 2^63 calls. *)
Definition nth_attempt (i : nat) : Z := Int64.wrap (Z.of_nat i).

Definition is_ContextError {error : Type} (r : result error) : bool :=
  match r with ContextError _ => true | _ => false end.

(** ** The select statement, by arrival times

    [select { case <-ctx.Done(): ...; case <-tr.after(delay): }]

    Go evaluates the two channel operands once, on entering the
    statement, and then looks at the channels: if one or more of the
    receives can proceed, a single one of them is chosen by a uniform
    pseudo-random choice; otherwise, as there is no default case, the
    statement blocks until one of them can proceed.  A receive from
    [ctx.Done()] can proceed from the moment the context is done, a
    receive from the timer channel from the moment the timer delivers.

    [Wait] holds what decides one such statement: the moment it looks at
    its channels, the moment the context is done if it ever is (with
    [ctx.Err()] from then on), the moment the timer channel delivers if it
    ever does, and the choice of the runtime between two receives that can
    both proceed ([true] for the first case, [ctx.Done()]). *)

Section Select.

Context {error : Type}.

Record Wait : Type := {
  entered : Z;
  done_at : option (Z * error);
  fires_at : option Z;
  pick_done : bool
}.

Definition go_select (w : Wait) : selected error :=
  match done_at w, fires_at w with
  | None, None => Blocked
  | Some (_, cause), None => CtxDone cause
  | None, Some _ => TimerFired
  | Some (c, cause), Some t =>
      let chosen := if pick_done w then CtxDone cause else TimerFired in
      if (c <=? entered w) && (t <=? entered w) then
        (* both receives can proceed when the statement looks *)
        chosen
      else if c <? t then CtxDone cause
      else if t <? c then TimerFired
      else (* both become able to proceed at the same moment *)
        chosen
  end.

(** The run in which the function returns [fn n] on attempt [n] and the
    wait that follows attempt [n], with delay [d], is [wait n d]. *)
Definition timed_run (fn : Z -> option error) (wait : Z -> Z -> Wait)
  : Run error :=
  {| f := fn; select_ := fun n d => go_select (wait n d) |}.

(** After the events [pre] and with the random source called [k] times,
    Try goes on with the attempt after attempt [i]. *)
Definition goes_on (env : Env) (tr : Tryer error) (run : Run error)
    (i : nat) (pre : list (event error)) (k : nat) : Prop :=
  forall fuel,
    Try env (i + S fuel) tr run =
    match Try_from env fuel tr run (Int64.wrap (Z.of_nat i + 1)) k with
    | Some (r, l) => Some (r, pre ++ l)
    | None => None
    end.

(** Try returns ContextError [cause] after the events [pre], which end
    with the wait that follows attempt [i]. *)
Definition cancelled_in_wait (env : Env) (tr : Tryer error) (run : Run error)
    (i : nat) (pre : list (event error)) (cause : error) : Prop :=
  forall fuel, (i < fuel)%nat ->
    Try env fuel tr run = Some (ContextError cause, pre).

End Select.

Arguments Wait error : clear implicits.

(** ** Rounding: what the proofs about float64 are stated with *)

(** The state of a right shift by [k] bits of [mx]: the quotient, and the
    round and sticky bits clear when the shift is exact. *)
Definition shifted (mx k : Z) (mrs : shr_record) : Prop :=
  shr_m mrs = mx / 2 ^ k /\
  (mx mod 2 ^ k = 0 -> shr_r mrs = false /\ shr_s mrs = false).

(** The value [m * 2^e] in units of [2^-2200], an integer for every
    exponent that occurs below. *)
Definition V (m e : Z) : Z := m * 2 ^ (e + 2200).

(** ** A sample environment and the package's own tests *)

Module Sample.

(** Powers with a non-negative integral exponent by repeated product; for
    other exponents the value is NaN.  The repository only needs
    [math.Pow] at such exponents. *)
Definition Pow (x y : float) : float :=
  match F64.trunc y with
  | Some (Zpos p) => Pos.iter (fun a => (a * x)%float) 1%float p
  | Some Z0 => 1%float
  | _ => nan
  end.

(** On amd64 an out-of-range conversion yields the smallest int64. *)
Definition env : Env := {|
  math_Pow := Pow;
  out_of_range := fun _ => Int64.min_int;
  rand_Float64 := fun _ => 0.5%float
|}.

Definition ms : Z := 1000000.

End Sample.

(** ** The inputs of the package's tests *)

Module Tests.

Import Sample.
Import String.
Local Open Scope list_scope.
Local Open Scope Z_scope.

Definition testErr : string := "test error"%string.

(** TestTryerMax: Max is 3 and the function succeeds on attempt [i]. *)
Definition tryer_max : Tryer string := {|
  Max := 3; Delay := 0; Jitter := 0; Scale := 0; MaxDelay := 0;
  IsRetryable := None; Rand := None
|}.

Definition succeed_on (i : Z) : Run string := {|
  f := fun j => if j =? i then None else Some testErr;
  select_ := fun _ _ => TimerFired
|}.

(** TestTryerUnretryable *)
Definition retriableErr : string := "retriable error"%string.
Definition unretriableErr : string := "unretryable error"%string.

Definition tryer_unretryable : Tryer string := {|
  Max := 3; Delay := 0; Jitter := 0; Scale := 0; MaxDelay := 0;
  IsRetryable := Some (String.eqb retriableErr); Rand := None
|}.

Definition run_unretryable : Run string := {|
  f := fun i => if i =? 0 then Some retriableErr
                else if i =? 1 then Some unretriableErr else None;
  select_ := fun _ _ => TimerFired
|}.

(** TestCancel: no limit; the timer ends the first two waits and the
    context is cancelled during the third. *)
Definition Canceled : string := "context canceled"%string.

Definition tryer_cancel : Tryer string := {|
  Max := -1; Delay := 0; Jitter := 0; Scale := 0; MaxDelay := 0;
  IsRetryable := None; Rand := None
|}.

Definition run_cancel : Run string := {|
  f := fun _ => Some testErr;
  select_ := fun i _ => if i <? 2 then TimerFired else CtxDone Canceled
|}.

(** TestCalcDelay *)
Definition tryer_delay : Tryer string := {|
  Max := 0; Delay := 100 * ms; Jitter := 50 * ms; Scale := 0.5;
  MaxDelay := 0; IsRetryable := None;
  Rand := Some (floats_in_turn [0.1; 0.9; 0.2]%float)
|}.

(** A function that fails on every attempt. *)
Definition always_fails : Run string := {|
  f := fun _ => Some testErr;
  select_ := fun _ _ => TimerFired
|}.

(** Max is 2 and the second attempt fails with an error the predicate
    rejects. *)
Definition tryer_two : Tryer string := {|
  Max := 2; Delay := 0; Jitter := 0; Scale := 0; MaxDelay := 0;
  IsRetryable := Some (String.eqb retriableErr); Rand := None
|}.

(** Doubling with a ceiling and no attempt limit. *)
Definition tryer_backoff : Tryer string := {|
  Max := -1; Delay := 100 * ms; Jitter := 0; Scale := 1;
  MaxDelay := 10000 * ms; IsRetryable := None; Rand := None
|}.

(** A ceiling of 80ms under a delay of 100ms, with 50ms of jitter and a
    random source that returns 0.9. *)
Definition tryer_ceiling : Tryer string := {|
  Max := 5; Delay := 100 * ms; Jitter := 50 * ms; Scale := 0;
  MaxDelay := 80 * ms; IsRetryable := None;
  Rand := Some (fun _ => 0.9%float)
|}.

(** Waits seen from the select statement.  In [late_cancel] the timer
    channel has delivered at time 0 and the context is cancelled at time
    1, both before the statement looks at its channels at time 2: this is
    what happens with an After function whose channel already holds a
    value, or with a delay of zero when the context is cancelled between
    the call of the timer factory and the look at the channels.  In
    [early_cancel] the context is cancelled first.  In [timer_in_time]
    the statement is already waiting when the timer delivers, before the
    cancellation; [timer_only] is a wait with no cancellation, and
    [no_signal] one in which nothing ever arrives. *)
Definition late_cancel : Wait string := {|
  entered := 2; done_at := Some (1, Canceled); fires_at := Some 0;
  pick_done := true
|}.

Definition early_cancel : Wait string := {|
  entered := 2; done_at := Some (0, Canceled); fires_at := Some 1;
  pick_done := false
|}.

Definition timer_in_time : Wait string := {|
  entered := 0; done_at := Some (2, Canceled); fires_at := Some 1;
  pick_done := true
|}.

Definition timer_only : Wait string := {|
  entered := 0; done_at := None; fires_at := Some 0; pick_done := true
|}.

Definition no_signal : Wait string := {|
  entered := 0; done_at := None; fires_at := None; pick_done := true
|}.

(** The function that fails on every attempt, and the waits of a run
    whose first wait ends with the timer and whose later waits are
    [timer_in_time]. *)
Definition fails : Z -> option string := fun _ => Some testErr.

Definition waits_timer_first : Z -> Z -> Wait string :=
  fun n _ => if (n =? 0)%Z then timer_only else timer_in_time.

(** ExampleTryer: up to 5 attempts, 100ms of delay growing by half, 50ms
    of jitter and the default random source; the function fails on its
    first two tries and succeeds on its third, and the context outlasts
    the waits. *)
Definition tryer_example : Tryer string := {|
  Max := 5; Delay := 100 * ms; Jitter := 50 * ms; Scale := 0.5;
  MaxDelay := 0; IsRetryable := None; Rand := None
|}.

Definition run_example : Run string := {|
  f := fun n => if (n <? 2)%Z
                then Some (if (n =? 0)%Z then "failed on try #0"%string
                           else "failed on try #1"%string)
                else None;
  select_ := fun _ _ => TimerFired
|}.

End Tests.

(** * Part II: lemmas and theorems *)

(** ** 64-bit wrap-around *)

Lemma wrap_in_range z : Int64.in_range z -> Int64.wrap z = z.
Proof.
  unfold Int64.in_range, Int64.wrap, Int64.min_int, Int64.max_int; intros H.
  rewrite Z.mod_small; lia.
Qed.

(** A sum that overflows upward wraps to a negative number. *)
Lemma wrap_overflow z :
  Int64.max_int < z < 2 ^ 64 -> Int64.wrap z = z - 2 ^ 64.
Proof.
  unfold Int64.wrap, Int64.max_int. intros H.
  assert (E : (z + 2 ^ 63) mod 2 ^ 64 = z + 2 ^ 63 - 2 ^ 64).
  { symmetry. apply Z.mod_unique with 1; lia. }
  rewrite E. lia.
Qed.

(** ** Rounding in binary64

    The specification of the primitive floats ([SpecFloat]) rounds with
    [binary_round_aux].  What calcDelay needs from it is one fact: a
    result never passes a number of the format that bounds the exact
    value from above. *)

(** The exponent of the format for a number of magnitude [e]. *)
Lemma fexp_eq e : SpecFloat.fexp prec emax e = Z.max (e - 53) (-1074).
Proof. reflexivity. Qed.

(** Powers of two as opaque numbers, for [lia] and [nia]. *)
Ltac hide_pow :=
  repeat match goal with
         | |- context [2 ^ ?x] =>
             let v := fresh "pw" in set (v := 2 ^ x) in *; clearbody v
         | H : context [2 ^ ?x] |- _ =>
             let v := fresh "pw" in set (v := 2 ^ x) in *; clearbody v
         end.

(** The number of binary digits of a positive number. *)
Lemma digits2_pos_bounds p :
  2 ^ (Z.pos (digits2_pos p) - 1) <= Z.pos p < 2 ^ Z.pos (digits2_pos p).
Proof.
  induction p as [p IH|p IH|]; simpl digits2_pos.
  - rewrite Pos2Z.inj_succ, (Pos2Z.inj_xI p).
    replace (Z.succ (Z.pos (digits2_pos p)) - 1) with (Z.succ (Z.pos (digits2_pos p) - 1)) by lia.
    rewrite !Z.pow_succ_r by lia. hide_pow. lia.
  - rewrite Pos2Z.inj_succ, (Pos2Z.inj_xO p).
    replace (Z.succ (Z.pos (digits2_pos p)) - 1) with (Z.succ (Z.pos (digits2_pos p) - 1)) by lia.
    rewrite !Z.pow_succ_r by lia. hide_pow. lia.
  - simpl. lia.
Qed.

(** One step of the right shift. *)
Lemma shr_1_spec mrs :
  0 <= shr_m mrs ->
  shr_m (shr_1 mrs) = shr_m mrs / 2 /\
  shr_r (shr_1 mrs) = Z.odd (shr_m mrs) /\
  shr_s (shr_1 mrs) = shr_r mrs || shr_s mrs.
Proof.
  destruct mrs as [m r s]. simpl shr_m. intros Hm.
  destruct m as [|[p|p|]|p]; try lia; simpl; repeat split.
  - apply Z.div_unique with 1; lia.
  - apply Z.div_unique with 0; lia.
Qed.

Lemma shifted_step mx k mrs :
  0 <= mx -> 0 <= k -> shifted mx k mrs -> shifted mx (k + 1) (shr_1 mrs).
Proof.
  intros Hmx Hk [Hm Hx].
  assert (Hp : 0 < 2 ^ k) by (apply Z.pow_pos_nonneg; lia).
  assert (Hm0 : 0 <= shr_m mrs) by (rewrite Hm; apply Z.div_pos; lia).
  destruct (shr_1_spec mrs Hm0) as (E1 & E2 & E3).
  unfold shifted. rewrite Z.pow_add_r, Z.pow_1_r by lia.
  split.
  - rewrite E1, Hm. rewrite Z.div_div by lia. reflexivity.
  - intros H0. rewrite E2, E3.
    assert (H1 : mx mod 2 ^ k = 0).
    { apply Z.mod_divide in H0; [|lia]. apply Z.mod_divide; [lia|].
      destruct H0 as [t Ht]. exists (t * 2). lia. }
    destruct (Hx H1) as [-> ->]. split; [|reflexivity].
    rewrite Hm. apply Z.mod_divide in H0; [|lia]. destruct H0 as [t Ht].
    replace mx with ((t * 2) * 2 ^ k) by lia.
    rewrite Z.div_mul by lia. rewrite Z.odd_mul. simpl. apply andb_false_r.
Qed.

Lemma shifted_iter mx p : 0 <= mx -> forall k mrs,
  0 <= k -> shifted mx k mrs -> shifted mx (k + Z.pos p) (iter_pos shr_1 p mrs).
Proof.
  intros Hmx. induction p as [p IH|p IH|]; intros k mrs Hk H; simpl iter_pos.
  - replace (k + Z.pos p~1) with (k + 1 + Z.pos p + Z.pos p) by lia.
    apply IH; [lia|]. apply IH; [lia|]. now apply shifted_step.
  - replace (k + Z.pos p~0) with (k + Z.pos p + Z.pos p) by lia.
    apply IH; [lia|]. now apply IH.
  - now apply shifted_step.
Qed.

(** shr_fexp on an exact input: a right shift by [k >= 0] bits that brings
    the exponent to [fexp] of the magnitude when that is larger. *)
Lemma shr_fexp_spec mx e :
  0 <= mx ->
  exists k, k = Z.max 0 (SpecFloat.fexp prec emax (Zdigits2 mx + e) - e) /\
    snd (shr_fexp prec emax mx e loc_Exact) = e + k /\
    shifted mx k (fst (shr_fexp prec emax mx e loc_Exact)).
Proof.
  intros Hmx. unfold shr_fexp, shr. simpl shr_record_of_loc.
  destruct (SpecFloat.fexp prec emax (Zdigits2 mx + e) - e) as [|p|p] eqn:E.
  - exists 0. simpl. split; [lia|]. split; [lia|].
    split; simpl; [now rewrite Z.div_1_r | auto].
  - exists (Z.pos p). simpl fst; simpl snd. split; [lia|]. split; [lia|].
    apply (shifted_iter mx p Hmx 0); [lia|].
    split; simpl; [now rewrite Z.div_1_r | auto].
  - exists 0. simpl. split; [lia|]. split; [lia|].
    split; simpl; [now rewrite Z.div_1_r | auto].
Qed.

(** Rounding to nearest, ties to even, moves up by at most one, and not at
    all when the round bit is clear. *)
Lemma round_nearest_even_spec mrs :
  let m := round_nearest_even (shr_m mrs) (loc_of_shr_record mrs) in
  shr_m mrs <= m <= shr_m mrs + 1 /\
  (shr_r mrs = false -> m = shr_m mrs).
Proof.
  destruct mrs as [m [|] [|]]; simpl; try destruct (Z.even m); split; intros; try lia; discriminate.
Qed.

Lemma pow2_pos e : 0 <= e -> 0 < 2 ^ e.
Proof. intros. apply Z.pow_pos_nonneg; lia. Qed.

Lemma V_split m e k : -2200 <= e -> 0 <= k -> V m (e + k) = m * 2 ^ k * 2 ^ (e + 2200).
Proof.
  intros He Hk. unfold V.
  replace (e + k + 2200) with (k + (e + 2200)) by lia.
  rewrite Z.pow_add_r by lia. ring.
Qed.

Lemma Zdigits2_bounds m : 0 < m -> 2 ^ (Zdigits2 m - 1) <= m < 2 ^ Zdigits2 m.
Proof.
  destruct m as [|p|p]; try lia. intros _. apply digits2_pos_bounds.
Qed.

Lemma Zdigits2_le m d : 0 < m -> 0 <= d -> m < 2 ^ d -> Zdigits2 m <= d.
Proof.
  intros Hm Hd H. destruct (Zdigits2_bounds m Hm) as [H1 _].
  assert (2 ^ (Zdigits2 m - 1) < 2 ^ d) by lia.
  apply Z.pow_lt_mono_r_iff in H0; lia.
Qed.

(** A smaller positive value has a smaller magnitude. *)
Lemma mag_le mx ex b eb :
  0 < mx -> 0 < b -> -2200 <= ex -> -2200 <= eb ->
  V mx ex <= V b eb -> Zdigits2 mx + ex <= Zdigits2 b + eb.
Proof.
  intros Hmx Hb Hex Heb H. unfold V in H.
  destruct (Zdigits2_bounds mx Hmx) as [H1 _].
  destruct (Zdigits2_bounds b Hb) as [_ H2].
  assert (Hdb : 0 < Zdigits2 b) by (destruct b; simpl; lia).
  assert (Hdx : 0 < Zdigits2 mx) by (destruct mx; simpl; lia).
  assert (Hp : 2 ^ (Zdigits2 mx - 1 + (ex + 2200)) < 2 ^ (Zdigits2 b + (eb + 2200))).
  { rewrite (Z.pow_add_r 2 (Zdigits2 mx - 1)), (Z.pow_add_r 2 (Zdigits2 b)) by lia.
    pose proof (pow2_pos (ex + 2200) ltac:(lia)).
    pose proof (pow2_pos (eb + 2200) ltac:(lia)).
    hide_pow. nia. }
  apply Z.pow_lt_mono_r_iff in Hp; lia.
Qed.

(** The main fact.  If the exact value [mx * 2^ex] is at most [b * 2^eb],
    a number with at most 53 digits at an exponent of the format, then
    its rounding is a zero or a finite float that is at most [b * 2^eb]
    too; it is neither an infinity nor NaN. *)
Lemma binary_round_aux_upper s mx ex b eb :
  0 < mx -> 0 < b < 2 ^ 53 -> -1074 <= eb <= 971 -> -2200 <= ex <= 971 ->
  V mx ex <= V b eb ->
  match binary_round_aux prec emax s mx ex loc_Exact with
  | S754_zero s' => s' = s
  | S754_finite s' m e => s' = s /\ ex <= e /\ V (Z.pos m) e <= V b eb
  | _ => False
  end.
Proof.
  intros Hmx Hb Heb Hex Hle. unfold binary_round_aux.
  destruct (shr_fexp_spec mx ex ltac:(lia)) as (k1 & Hk1 & He1 & Hm1 & Hx1).
  destruct (shr_fexp prec emax mx ex loc_Exact) as [mrs1 e1].
  simpl fst in *; simpl snd in *.
  destruct (round_nearest_even_spec mrs1) as [Hm2 Hm2x].
  set (m2 := round_nearest_even (shr_m mrs1) (loc_of_shr_record mrs1)) in *.
  assert (Hdb : Zdigits2 b <= 53) by (apply Zdigits2_le; lia).
  pose proof (mag_le mx ex b eb Hmx ltac:(lia) ltac:(lia) ltac:(lia) Hle) as Hmag.
  rewrite fexp_eq in Hk1.
  assert (Hk1' : 0 <= k1) by lia.
  assert (He1b : e1 <= Z.max ex eb) by lia.
  assert (Hq : 0 < 2 ^ k1) by (apply pow2_pos; lia).
  assert (Hm1' : 0 <= shr_m mrs1) by (rewrite Hm1; apply Z.div_pos; lia).
  assert (HA : V m2 e1 <= V b eb).
  { destruct (Z.eq_dec k1 0) as [E0|N0].
    - assert (m2 = mx).
      { rewrite Hm2x; [rewrite Hm1, E0; apply Z.div_1_r|].
        apply Hx1. rewrite E0. apply Z.mod_1_r. }
      subst m2. replace e1 with ex by lia. now rewrite H.
    - assert (Ee1 : e1 <= eb) by lia.
      assert (Hm2c : m2 * 2 ^ k1 <= b * 2 ^ (eb - ex)).
      { pose proof (pow2_pos (ex + 2200) ltac:(lia)) as HP.
        assert (Hmx' : mx <= b * 2 ^ (eb - ex)).
        { unfold V in Hle.
          replace (eb + 2200) with ((eb - ex) + (ex + 2200)) in Hle by lia.
          rewrite (Z.pow_add_r 2 (eb - ex)) in Hle by lia. hide_pow. nia. }
        replace (eb - ex) with ((eb - e1) + k1) in * by lia.
        rewrite (Z.pow_add_r 2 (eb - e1) k1) in * by lia.
        set (cB := b * 2 ^ (eb - e1)) in *.
        replace (b * (2 ^ (eb - e1) * 2 ^ k1)) with (cB * 2 ^ k1) in * by (unfold cB; ring).
        pose proof (Z.mul_div_le mx (2 ^ k1) Hq) as D1.
        pose proof (Z.mod_eq mx (2 ^ k1) ltac:(lia)) as D2.
        pose proof (Z.mod_pos_bound mx (2 ^ k1) Hq) as D3.
        rewrite <- Hm1 in D1, D2.
        destruct (Z.eq_dec (mx mod 2 ^ k1) 0) as [Ex|Nx].
        - destruct (Hx1 Ex) as [Hr _]. rewrite (Hm2x Hr). nia.
        - assert (shr_m mrs1 < cB) by nia. nia. }
      unfold V. replace (e1 + 2200) with (k1 + (ex + 2200)) by lia.
      replace (eb + 2200) with ((eb - ex) + (ex + 2200)) by lia.
      rewrite (Z.pow_add_r 2 k1), (Z.pow_add_r 2 (eb - ex)) by lia.
      pose proof (pow2_pos (ex + 2200) ltac:(lia)). hide_pow. nia. }
  assert (Hm2' : 0 <= m2) by lia.
  destruct (shr_fexp_spec m2 e1 Hm2') as (k2 & Hk2 & He3 & Hm3 & _).
  destruct (shr_fexp prec emax m2 e1 loc_Exact) as [mrs3 e3].
  simpl fst in *; simpl snd in *.
  rewrite fexp_eq in Hk2.
  assert (Hk2' : 0 <= k2) by lia.
  assert (Hq2 : 0 < 2 ^ k2) by (apply pow2_pos; lia).
  assert (HB : V (shr_m mrs3) e3 <= V m2 e1).
  { rewrite He3, V_split by lia. unfold V. rewrite Hm3.
    pose proof (Z.mul_div_le m2 (2 ^ k2) Hq2).
    pose proof (pow2_pos (e1 + 2200) ltac:(lia)). nia. }
  assert (Hm3' : 0 <= shr_m mrs3) by (rewrite Hm3; apply Z.div_pos; lia).
  destruct (shr_m mrs3) as [|m|m] eqn:Em3; [reflexivity| |lia].
  assert (Hm2pos : 0 < m2).
  { destruct (Z.eq_dec m2 0) as [E|]; [|lia].
    rewrite E, Z.div_0_l in Hm3 by lia. discriminate. }
  assert (He3b : e3 <= 971).
  { destruct (Z.eq_dec k2 0); [lia|].
    pose proof (mag_le m2 e1 b eb Hm2pos ltac:(lia) ltac:(lia) ltac:(lia) HA). lia. }
  apply Z.leb_le in He3b. change (emax - prec) with 971. rewrite He3b.
  repeat split; lia.
Qed.

(** Alignment of a mantissa to a smaller exponent keeps the value. *)
Lemma pos_iter_xO m d : Z.pos (Pos.iter xO m d) = Z.pos m * 2 ^ Z.pos d.
Proof.
  induction d as [|d IH] using Pos.peano_ind.
  - simpl. lia.
  - rewrite Pos.iter_succ, Pos2Z.inj_succ, Z.pow_succ_r by lia.
    rewrite (Pos2Z.inj_xO (Pos.iter xO m d)), IH. ring.
Qed.

Lemma shl_align_spec mx ex ex' :
  snd (shl_align mx ex ex') = Z.min ex ex' /\
  Z.pos (fst (shl_align mx ex ex')) =
  Z.pos mx * 2 ^ (ex - snd (shl_align mx ex ex')).
Proof.
  unfold shl_align. destruct (ex' - ex) as [|d|d] eqn:E; simpl.
  - split; [lia|]. rewrite Z.sub_diag. simpl. lia.
  - split; [lia|]. rewrite Z.sub_diag. simpl. lia.
  - split; [lia|]. rewrite pos_iter_xO.
    replace (ex - ex') with (Z.pos d) by lia. reflexivity.
Qed.

(** The same for [binary_round], which aligns the mantissa first. *)
Lemma binary_round_upper s mx ex b eb :
  0 < b < 2 ^ 53 -> -1074 <= eb <= 971 -> -2200 <= ex <= 971 ->
  V (Z.pos mx) ex <= V b eb ->
  match binary_round prec emax s mx ex with
  | S754_zero s' => s' = s
  | S754_finite s' m e => s' = s /\ V (Z.pos m) e <= V b eb
  | _ => False
  end.
Proof.
  intros Hb Heb Hex Hle. unfold binary_round.
  destruct (shl_align_spec mx ex (SpecFloat.fexp prec emax (Z.pos (digits2_pos mx) + ex)))
    as [Hz Hm].
  destruct (shl_align mx ex (SpecFloat.fexp prec emax (Z.pos (digits2_pos mx) + ex)))
    as [mz ez].
  simpl fst in *; simpl snd in *. rewrite fexp_eq in Hz.
  assert (HV : V (Z.pos mz) ez = V (Z.pos mx) ex).
  { unfold V. rewrite Hm.
    replace (ex + 2200) with ((ex - ez) + (ez + 2200)) by lia.
    rewrite (Z.pow_add_r 2 (ex - ez)) by lia. ring. }
  pose proof (binary_round_aux_upper s (Z.pos mz) ez b eb ltac:(lia) Hb Heb ltac:(lia)
                ltac:(now rewrite HV)) as H.
  destruct (binary_round_aux prec emax s (Z.pos mz) ez loc_Exact); intuition.
Qed.

(** A valid finite float: at most 53 digits, and exactly 53 unless its
    exponent is the smallest one. *)
Lemma valid_finite s m e :
  valid_binary (S754_finite s m e) = true ->
  Z.pos m < 2 ^ 53 /\ -1074 <= e <= 971 /\ (2 ^ 52 <= Z.pos m \/ e = -1074).
Proof.
  unfold SpecFloat.valid_binary, bounded, canonical_mantissa.
  rewrite fexp_eq. change (emax - prec) with 971.
  intros H. apply andb_prop in H. destruct H as [H1 H2].
  apply Z.eqb_eq in H1. apply Z.leb_le in H2.
  pose proof (digits2_pos_bounds m) as [D1 D2].
  assert (Hd : Z.pos (digits2_pos m) <= 53) by lia.
  split; [|split; [lia|]].
  - apply Z.lt_le_trans with (1 := D2). apply Z.pow_le_mono_r; lia.
  - destruct (Z.eq_dec e (-1074)); [now right|left].
    replace (Z.pos (digits2_pos m)) with 53 in D1 by lia. exact D1.
Qed.

(** [F64.of_int] is the primitive conversion, and so rounds as the
    specification says. *)
Lemma of_int_spec j :
  0 < j < 2 ^ 63 ->
  Prim2SF (SF2Prim (binary_normalize prec emax j 0 false)) =
  binary_round prec emax false (Z.to_pos j) 0.
Proof.
  intros Hj.
  pose proof (of_uint63_spec (Uint63.of_Z j)) as H.
  rewrite Uint63.of_Z_spec in H.
  rewrite Z.mod_small in H by (change Uint63.wB with (2 ^ 63); lia).
  rewrite <- H, SF2Prim_Prim2SF, H.
  destruct j; try lia. reflexivity.
Qed.

(** The constants of calcDelay. *)
Lemma Prim2SF_0 : Prim2SF 0 = S754_zero false.
Proof. reflexivity. Qed.

Lemma Prim2SF_1 : Prim2SF 1 = S754_finite false 4503599627370496 (-52).
Proof. reflexivity. Qed.

Lemma Prim2SF_2 : Prim2SF 2 = S754_finite false 4503599627370496 (-51).
Proof. reflexivity. Qed.

(** What the comparisons with 0 and with a positive float say. *)
Lemma SFleb_zero_inv x :
  SFleb (S754_zero false) x = true ->
  match x with
  | S754_zero _ | S754_finite false _ _ | S754_infinity false => True
  | _ => False
  end.
Proof.
  destruct x as [s|s| |s m e]; try destruct s; trivial; discriminate.
Qed.

Lemma SFltb_finite_inv x q eq :
  SFltb x (S754_finite false q eq) = true ->
  match x with
  | S754_finite false m e => e < eq \/ (e = eq /\ Z.pos m < Z.pos q)
  | S754_infinity false | S754_nan => False
  | _ => True
  end.
Proof.
  destruct x as [s|s| |s m e]; try destruct s; trivial; try discriminate.
  unfold SFltb, SFcompare.
  destruct (Z.compare_spec e eq) as [E|E|E]; try discriminate.
  - change (Pos.compare_cont Eq m q) with (Pos.compare m q).
    destruct (Pos.compare_spec m q) as [C|C|C]; try discriminate.
    intros _. right. split; [exact E|]. now apply Pos2Z.pos_lt_pos.
  - intros _. now left.
Qed.

(** A float in [0, 1) is a zero or a positive number with an exponent of
    at most -53. *)
Lemma unit_interval r :
  (0 <=? r)%float = true -> (r <? 1)%float = true ->
  match Prim2SF r with
  | S754_zero _ => True
  | S754_finite false m e => Z.pos m < 2 ^ 53 /\ -1074 <= e <= -53
  | _ => False
  end.
Proof.
  rewrite FloatAxioms.leb_spec, FloatAxioms.ltb_spec, Prim2SF_0, Prim2SF_1.
  intros H0 H1. apply SFleb_zero_inv in H0. apply SFltb_finite_inv in H1.
  pose proof (Prim2SF_valid r) as Hv.
  destruct (Prim2SF r) as [s|s| |s m e]; trivial.
  - now destruct s.
  - destruct s; [exact H0|].
    destruct (valid_finite false m e Hv) as (Hm & He & Hn).
    split; [exact Hm|].
    assert (Hq : Z.pos 4503599627370496 = 2 ^ 52) by reflexivity.
    rewrite Hq in H1. lia.
Qed.

Lemma V_add m1 m2 e : V (m1 + m2) e = V m1 e + V m2 e.
Proof. unfold V. ring. Qed.

Lemma V_align m e ez :
  -2200 <= ez <= e -> V (m * 2 ^ (e - ez)) ez = V m e.
Proof.
  intros H. unfold V.
  replace (e + 2200) with ((e - ez) + (ez + 2200)) by lia.
  rewrite (Z.pow_add_r 2 (e - ez)) by lia. ring.
Qed.

Lemma two_r_bound m e :
  Z.pos m < 2 ^ 53 -> -1074 <= e <= -53 ->
  V (2 ^ 52 * Z.pos m) (-51 + e) <= V (2 ^ 53 - 1) (-52).
Proof.
  intros Hm He. unfold V.
  replace (-52 + 2200) with (52 + 2096) by lia.
  rewrite (Z.pow_add_r 2 52 2096) by lia.
  assert (2 ^ (-51 + e + 2200) <= 2 ^ 2096) by (apply Z.pow_le_mono_r; lia).
  pose proof (pow2_pos (-51 + e + 2200) ltac:(lia)).
  set (a := 2 ^ 52) in *. set (b := 2 ^ 53) in *.
  assert (0 < a) by (unfold a; lia).
  assert (0 < b) by (unfold b; lia).
  clearbody a b. hide_pow.
  assert (Z.pos m * pw <= (b - 1) * pw0)
    by (apply Z.mul_le_mono_nonneg; lia).
  nia.
Qed.

(** Doubling a float of [0, 1): the product is below 2. *)
Lemma SFmul_two q m e :
  Z.pos q = 2 ^ 52 -> Z.pos m < 2 ^ 53 -> -1074 <= e <= -53 ->
  match SF64mul (S754_finite false q (-51)) (S754_finite false m e) with
  | S754_zero _ => True
  | S754_finite false mt et => V (Z.pos mt) et <= V (2 ^ 53 - 1) (-52)
  | _ => False
  end.
Proof.
  intros Hq Hm He. unfold SF64mul, SFmul. cbn [xorb].
  pose proof (binary_round_aux_upper false (Z.pos (q * m)) (-51 + e) (2 ^ 53 - 1) (-52)
                ltac:(lia) ltac:(lia) ltac:(lia) ltac:(lia)) as H.
  rewrite Pos2Z.inj_mul, Hq in H. specialize (H (two_r_bound m e Hm He)).
  rewrite <- Hq, <- Pos2Z.inj_mul in H.
  destruct (binary_round_aux prec emax false (Z.pos (q * m)) (-51 + e) loc_Exact)
    as [s|s| |s mt et]; trivial.
  destruct H as (-> & _ & Hv). exact Hv.
Qed.

(** Subtracting 1 from a float of [0, 2): the difference is in
    [-1, 1 - 2^-52]. *)
Lemma SFsub_one t q :
  Z.pos q = 2 ^ 52 ->
  match t with
  | S754_zero _ => True
  | S754_finite false mt et => -1074 <= et /\ V (Z.pos mt) et <= V (2 ^ 53 - 1) (-52)
  | _ => False
  end ->
  match SF64sub t (S754_finite false q (-52)) with
  | S754_zero _ => True
  | S754_finite false m e => V (Z.pos m) e <= V (2 ^ 52 - 1) (-52)
  | S754_finite true m e => V (Z.pos m) e <= V (2 ^ 52) (-52)
  | _ => False
  end.
Proof.
  intros Hq Ht. unfold SF64sub, SFsub.
  destruct t as [s|s| |s mt et]; try contradiction.
  - destruct s; cbn [negb]; rewrite Hq; lia.
  - destruct s; [contradiction|]. destruct Ht as [Het Ht].
    cbn [cond_Zopp].
    set (ez := Z.min et (-52)).
    destruct (shl_align_spec mt et ez) as [S1 A1].
    destruct (shl_align_spec q (-52) ez) as [S2 A2].
    rewrite S1 in A1. rewrite S2 in A2.
    replace (Z.min et ez) with ez in A1 by lia.
    replace (Z.min (-52) ez) with ez in A2 by lia.
    rewrite A1, A2, Hq.
    assert (E1 : V (Z.pos mt * 2 ^ (et - ez)) ez = V (Z.pos mt) et)
      by (apply V_align; lia).
    assert (E2 : V (2 ^ 52 * 2 ^ (-52 - ez)) ez = V (2 ^ 52) (-52))
      by (apply V_align; lia).
    assert (E3 : V (2 ^ 53 - 1) (-52) = V (2 ^ 52) (-52) + V (2 ^ 52 - 1) (-52)).
    { rewrite <- V_add. f_equal. }
    set (A := Z.pos mt * 2 ^ (et - ez)) in *.
    set (B := 2 ^ 52 * 2 ^ (-52 - ez)) in *.
    assert (ED : V (A - B) ez = V A ez - V B ez) by (unfold V; ring).
    unfold binary_normalize.
    destruct (A - B) as [|p|p] eqn:EAB; trivial.
    + pose proof (binary_round_upper false p ez (2 ^ 52 - 1) (-52)
                    ltac:(lia) ltac:(lia) ltac:(lia) ltac:(lia)) as H.
      destruct (binary_round prec emax false p ez) as [s|s| |s m e];
        try tauto. destruct H as [-> H]. exact H.
    + assert (EN : V (Z.pos p) ez = V B ez - V A ez).
      { replace (Z.pos p) with (- Z.neg p) by reflexivity.
        unfold V in *. lia. }
      assert (HA0 : 0 <= V A ez).
      { unfold V, A. pose proof (pow2_pos (ez + 2200) ltac:(lia)).
        pose proof (pow2_pos (et - ez) ltac:(lia)). nia. }
      pose proof (binary_round_upper true p ez (2 ^ 52) (-52)
                    ltac:(lia) ltac:(lia) ltac:(lia) ltac:(lia)) as H.
      destruct (binary_round prec emax true p ez) as [s|s| |s m e];
        try tauto. destruct H as [-> H]. exact H.
Qed.

Lemma V_le_cancel m1 m2 e : -2200 <= e -> V m1 e <= V m2 e -> m1 <= m2.
Proof.
  intros He H. unfold V in H. pose proof (pow2_pos (e + 2200) ltac:(lia)).
  hide_pow. nia.
Qed.

(** Bounds on a value of magnitude at most 1, stated on its mantissa. *)
Lemma V_unit_pos m e :
  -1074 <= e -> V (Z.pos m) e <= V (2 ^ 52 - 1) (-52) ->
  e <= 0 /\ Z.pos m * 2 ^ 52 <= (2 ^ 52 - 1) * 2 ^ (- e).
Proof.
  intros He H. unfold V in H.
  assert (He0 : e <= 0).
  { destruct (Z_le_gt_dec e 0) as [|Hgt]; trivial. exfalso.
    assert (2 ^ (52 + (-52 + 2200)) <= 2 ^ (e + 2200))
      by (apply Z.pow_le_mono_r; lia).
    rewrite (Z.pow_add_r 2 52) in H0 by lia.
    pose proof (pow2_pos (-52 + 2200) ltac:(lia)).
    set (a := 2 ^ 52) in *. assert (0 < a) by (unfold a; lia). clearbody a.
    hide_pow. nia. }
  split; trivial.
  assert (E : 2 ^ (e + 2200) * 2 ^ (- e) = 2 ^ 52 * 2 ^ (-52 + 2200)).
  { rewrite <- !Z.pow_add_r by lia. f_equal. lia. }
  pose proof (pow2_pos (e + 2200) ltac:(lia)).
  pose proof (pow2_pos (- e) ltac:(lia)).
  pose proof (pow2_pos (-52 + 2200) ltac:(lia)).
  set (a := 2 ^ 52) in *. assert (0 < a) by (unfold a; lia).
  set (P := 2 ^ (e + 2200)) in *. set (Qe := 2 ^ (- e)) in *.
  set (W := 2 ^ (-52 + 2200)) in *. clearbody a P Qe W.
  assert (H5 : P * (Z.pos m * a) <= P * ((a - 1) * Qe)).
  { replace (P * ((a - 1) * Qe)) with ((a - 1) * (P * Qe)) by ring.
    rewrite E. nia. }
  apply Z.mul_le_mono_pos_l in H5; lia.
Qed.

Lemma V_unit_neg m e :
  -1074 <= e -> V (Z.pos m) e <= V (2 ^ 52) (-52) ->
  e <= 0 /\ Z.pos m <= 2 ^ (- e).
Proof.
  intros He H. unfold V in H.
  rewrite <- Z.pow_add_r in H by lia.
  assert (He0 : e <= 0).
  { destruct (Z_le_gt_dec e 0) as [|Hgt]; trivial. exfalso.
    assert (2 ^ (52 + (-52 + 2200)) < 2 ^ (e + 2200))
      by (apply Z.pow_lt_mono_r; lia).
    pose proof (pow2_pos (e + 2200) ltac:(lia)).
    hide_pow. nia. }
  split; trivial.
  replace (52 + (-52 + 2200)) with ((- e) + (e + 2200)) in H by lia.
  rewrite (Z.pow_add_r 2 (- e)) in H by lia.
  pose proof (pow2_pos (e + 2200) ltac:(lia)).
  hide_pow. nia.
Qed.

(** The random factor [2r - 1] for [r] in [0, 1): its magnitude is at most
    1, and when it is positive it is at most [1 - 2^-52]. *)
Lemma rand_shape r :
  (0 <=? r)%float = true -> (r <? 1)%float = true ->
  match Prim2SF (2 * r - 1) with
  | S754_zero _ => True
  | S754_finite false m e =>
      -1074 <= e <= 0 /\ Z.pos m * 2 ^ 52 <= (2 ^ 52 - 1) * 2 ^ (- e)
  | S754_finite true m e => -1074 <= e <= 0 /\ Z.pos m <= 2 ^ (- e)
  | _ => False
  end.
Proof.
  intros H0 H1. pose proof (unit_interval r H0 H1) as Hr.
  pose proof (Prim2SF_valid (2 * r)) as Hvt.
  pose proof (Prim2SF_valid (2 * r - 1)) as Hv.
  rewrite sub_spec in *. rewrite mul_spec in *.
  rewrite Prim2SF_1, Prim2SF_2 in *.
  set (q := 4503599627370496%positive) in *.
  assert (Hq : Z.pos q = 2 ^ 52) by reflexivity. clearbody q.
  set (t := SF64mul (S754_finite false q (-51)) (Prim2SF r)) in *.
  assert (Ht : match t with
               | S754_zero _ => True
               | S754_finite false mt et =>
                   -1074 <= et /\ V (Z.pos mt) et <= V (2 ^ 53 - 1) (-52)
               | _ => False
               end).
  { unfold t in *. clear Hv. revert Hr Hvt.
    generalize (Prim2SF r). intros R Hr Hvt.
    destruct R as [s|s| |s m e]; try contradiction.
    - exact I.
    - destruct s; [contradiction|]. destruct Hr as [Hm He].
      pose proof (SFmul_two q m e Hq Hm He) as H.
      destruct (SF64mul (S754_finite false q (-51)) (S754_finite false m e))
        as [s|s| |s mt et]; trivial.
      destruct s; [contradiction|]. split; [|exact H].
      apply valid_finite in Hvt. lia. }
  clearbody t. pose proof (SFsub_one t q Hq Ht) as H.
  destruct (SF64sub t (S754_finite false q (-52))) as [s|s| |s m e]; trivial.
  apply valid_finite in Hv. destruct Hv as (_ & He & _).
  destruct s.
  - destruct (V_unit_neg m e ltac:(lia) H). split; [lia|trivial].
  - destruct (V_unit_pos m e ltac:(lia) H). split; [lia|trivial].
Qed.

(** float64(j) for 0 < j < 2^63: at most 2^63, and the float one unit in
    the last place below it is below [j]. *)
Lemma of_int_shape j :
  0 < j < 2 ^ 63 ->
  match Prim2SF (F64.of_int j) with
  | S754_zero _ => True
  | S754_finite false m e =>
      Z.pos m < 2 ^ 53 /\ -1074 <= e <= 11 /\
      (2 ^ 52 <= Z.pos m \/ e = -1074) /\
      V (Z.pos m) e <= V (2 ^ 52) 11 /\
      V (Z.pos m - 1) e < V j 0 /\
      (j < 2 ^ 53 -> V (Z.pos m) e <= V j 0)
  | _ => False
  end.
Proof.
  intros Hj. pose proof (Prim2SF_valid (F64.of_int j)) as Hv.
  unfold F64.of_int in *. rewrite of_int_spec in * by exact Hj.
  assert (Hjp : Z.pos (Z.to_pos j) = j) by (apply Z2Pos.id; lia).
  assert (Hj63 : V j 0 <= V (2 ^ 52) 11).
  { unfold V. replace (11 + 2200) with (11 + (0 + 2200)) by lia.
    rewrite (Z.pow_add_r 2 11) by lia.
    pose proof (pow2_pos (0 + 2200) ltac:(lia)).
    rewrite Z.mul_assoc. apply Z.mul_le_mono_nonneg_r; [lia|].
    replace (2 ^ 52 * 2 ^ 11) with (2 ^ 63) by reflexivity. lia. }
  pose proof (binary_round_upper false (Z.to_pos j) 0 (2 ^ 52) 11
                ltac:(lia) ltac:(lia) ltac:(lia)) as H.
  rewrite Hjp in H. specialize (H Hj63).
  pose proof (fun b Hb eb Heb =>
                binary_round_upper false (Z.to_pos j) 0 b eb Hb Heb ltac:(lia))
    as Hup.
  rewrite Hjp in Hup.
  destruct (binary_round prec emax false (Z.to_pos j) 0) as [s|s| |s m e];
    trivial.
  destruct H as [-> H].
  destruct (valid_finite false m e Hv) as (Hm & He & Hn).
  assert (He11 : e <= 11).
  { destruct Hn as [Hn|Hn]; [|lia].
    destruct (Z_le_gt_dec e 11) as [|Hgt]; trivial. exfalso.
    unfold V in H.
    assert (2 ^ (11 + 2200) < 2 ^ (e + 2200)) by (apply Z.pow_lt_mono_r; lia).
    pose proof (pow2_pos (11 + 2200) ltac:(lia)).
    set (a := 2 ^ 52) in *. assert (0 < a) by (unfold a; lia). clearbody a.
    hide_pow. nia. }
  split; [exact Hm|]. split; [lia|]. split; [exact Hn|].
  split; [exact H|]. split.
  - destruct (Z.eq_dec (Z.pos m) 1) as [E1|N1].
    + rewrite E1. unfold V. simpl (1 - 1). rewrite Z.mul_0_l.
      pose proof (pow2_pos (0 + 2200) ltac:(lia)). hide_pow. nia.
    + destruct (Z_lt_le_dec (V (Z.pos m - 1) e) (V j 0)) as [|Hle]; trivial.
      exfalso.
      specialize (Hup (Z.pos m - 1) ltac:(lia) e ltac:(lia) Hle).
      cbv beta iota in Hup. destruct Hup as [_ Hup].
      apply V_le_cancel in Hup; lia.
  - intros Hsmall.
    specialize (Hup j ltac:(lia) 0 ltac:(lia) ltac:(lia)).
    cbv beta iota in Hup. now destruct Hup as [_ Hup].
Qed.

(** The value of a product with a factor of magnitude at most 1. *)
Lemma V_mul x y e er :
  -2200 <= e + er -> er <= 0 -> 0 <= y -> x <= y * 2 ^ (- er) ->
  V x (e + er) <= V y e.
Proof.
  intros H1 H2 Hy H. unfold V.
  replace (e + 2200) with ((- er) + (e + er + 2200)) by lia.
  rewrite (Z.pow_add_r 2 (- er)) by lia.
  pose proof (pow2_pos (e + er + 2200) ltac:(lia)).
  rewrite Z.mul_assoc. apply Z.mul_le_mono_nonneg_r; lia.
Qed.

(** The product float64(j) * (2r - 1): below [j] when positive, of
    magnitude at most 2^63 when negative. *)
Lemma jitter_shape j r :
  0 < j < 2 ^ 63 ->
  (0 <=? r)%float = true -> (r <? 1)%float = true ->
  match Prim2SF (F64.of_int j * (2 * r - 1)) with
  | S754_zero _ => True
  | S754_finite false m e => -1074 <= e /\ V (Z.pos m) e < V j 0
  | S754_finite true m e =>
      -1074 <= e /\ V (Z.pos m) e <= V (2 ^ 52) 11 /\
      (j < 2 ^ 53 -> V (Z.pos m) e <= V j 0)
  | _ => False
  end.
Proof.
  intros Hj H0 H1.
  pose proof (of_int_shape j Hj) as HX.
  pose proof (rand_shape r H0 H1) as HR.
  pose proof (Prim2SF_valid (F64.of_int j * (2 * r - 1))) as Hv.
  rewrite mul_spec in *. revert HX HR Hv.
  generalize (Prim2SF (F64.of_int j)), (Prim2SF (2 * r - 1)).
  intros X R HX HR Hv. unfold SF64mul, SFmul in *.
  destruct X as [sx|sx| |sx m e]; try contradiction;
    destruct R as [sr|sr| |sr mr er]; try contradiction; trivial.
  destruct sx; [contradiction|].
  destruct HX as (Hm & He & Hn & H63 & Hlt & Hex).
  cbn [xorb] in *.
  assert (Hev : forall s my ey,
            binary_round_aux prec emax sr (Z.pos (m * mr)) (e + er) loc_Exact =
            S754_finite s my ey -> -1074 <= ey).
  { intros s my ey E. rewrite E in Hv. apply valid_finite in Hv. lia. }
  destruct sr.
  - destruct HR as (Her & Hmr).
    pose proof (binary_round_aux_upper true (Z.pos (m * mr)) (e + er) (Z.pos m) e
                  ltac:(lia) ltac:(lia) ltac:(lia) ltac:(lia)) as H.
    assert (Hle : V (Z.pos (m * mr)) (e + er) <= V (Z.pos m) e).
    { apply V_mul; try lia. rewrite Pos2Z.inj_mul.
      apply Z.mul_le_mono_nonneg_l; lia. }
    specialize (H Hle).
    destruct (binary_round_aux prec emax true (Z.pos (m * mr)) (e + er) loc_Exact)
      as [s|s| |s my ey] eqn:E; trivial.
    destruct H as (-> & _ & H). split; [eapply Hev; eauto |].
    split; [lia|]. intros Hsmall. specialize (Hex Hsmall). lia.
  - destruct HR as (Her & Hmr).
    set (a := 2 ^ 52) in *. assert (Ha : 0 < a) by (unfold a; lia).
    pose proof (pow2_pos (- er) ltac:(lia)) as HQ.
    set (Q := 2 ^ (- er)) in *.
    destruct (Z_le_gt_dec a (Z.pos m)) as [Hnorm|Hsub].
    + pose proof (binary_round_aux_upper false (Z.pos (m * mr)) (e + er) (Z.pos m - 1) e
                    ltac:(lia) ltac:(lia) ltac:(lia) ltac:(lia)) as H.
      assert (Hle : V (Z.pos (m * mr)) (e + er) <= V (Z.pos m - 1) e).
      { apply V_mul; try lia. rewrite Pos2Z.inj_mul. fold Q.
        clearbody a Q.
        assert (a * (Z.pos m * Z.pos mr) <= a * ((Z.pos m - 1) * Q)) by nia.
        apply Z.mul_le_mono_pos_l in H2; lia. }
      specialize (H Hle).
      destruct (binary_round_aux prec emax false (Z.pos (m * mr)) (e + er) loc_Exact)
        as [s|s| |s my ey] eqn:E; trivial.
      destruct H as (-> & _ & H). split; [eapply Hev; eauto | lia].
    + assert (Hemin : e = -1074) by (unfold a in Hsub; lia).
      pose proof (binary_round_aux_upper false (Z.pos (m * mr)) (e + er) (Z.pos m) e
                    ltac:(lia) ltac:(lia) ltac:(lia) ltac:(lia)) as H.
      assert (Hle : V (Z.pos (m * mr)) (e + er) <= V (Z.pos m) e).
      { apply V_mul; try lia. rewrite Pos2Z.inj_mul. fold Q.
        clearbody a Q.
        assert (Z.pos mr <= Q) by nia.
        apply Z.mul_le_mono_nonneg_l; lia. }
      specialize (H Hle).
      assert (Hsmall : V (Z.pos m) e < V j 0).
      { unfold V. subst e.
        apply Z.lt_le_trans with (2 ^ 53 * 2 ^ (-1074 + 2200)).
        - apply Z.mul_lt_mono_pos_r; [apply pow2_pos|]; lia.
        - rewrite <- Z.pow_add_r by lia.
          apply Z.le_trans with (1 * 2 ^ (0 + 2200)).
          + rewrite Z.mul_1_l. apply Z.pow_le_mono_r; lia.
          + apply Z.mul_le_mono_nonneg_r; [apply Z.lt_le_incl, pow2_pos|]; lia. }
      destruct (binary_round_aux prec emax false (Z.pos (m * mr)) (e + er) loc_Exact)
        as [s|s| |s my ey] eqn:E; trivial.
      destruct H as (-> & _ & H). split; [eapply Hev; eauto | lia].
Qed.

Lemma V_int m e :
  0 <= e -> V m e = (m * 2 ^ e) * 2 ^ (0 + 2200).
Proof.
  intros He. unfold V. replace (e + 2200) with (e + (0 + 2200)) by lia.
  rewrite (Z.pow_add_r 2 e) by lia. ring.
Qed.

Lemma V_frac m e :
  -2200 <= e <= 0 -> V (m * 2 ^ (- e)) e = V m 0.
Proof.
  intros He. unfold V.
  replace (0 + 2200) with ((- e) + (e + 2200)) by lia.
  rewrite (Z.pow_add_r 2 (- e)) by lia. ring.
Qed.

(** The integer part of a finite float, against integer bounds. *)
Lemma trunc_magnitude m e (b : Z) :
  -1074 <= e -> 0 <= b ->
  let a := if 0 <=? e then Z.pos m * 2 ^ e else Z.shiftr (Z.pos m) (- e) in
  0 <= a /\
  (V (Z.pos m) e < V b 0 -> a < b) /\
  (V (Z.pos m) e <= V b 0 -> a <= b).
Proof.
  intros He Hb a. subst a.
  pose proof (pow2_pos (0 + 2200) ltac:(lia)) as HP.
  destruct (Z.leb_spec 0 e) as [H|H].
  - rewrite V_int by lia.
    pose proof (pow2_pos e H).
    unfold V. set (P := 2 ^ (0 + 2200)) in *. clearbody P.
    split; [nia|]. split; intros; nia.
  - rewrite Z.shiftr_div_pow2 by lia.
    pose proof (pow2_pos (- e) ltac:(lia)) as HQ.
    rewrite <- (V_frac b e) by lia.
    split; [apply Z.div_pos; lia|].
    split; intros Hlt.
    + apply Z.div_lt_upper_bound; [lia|].
      unfold V in Hlt. pose proof (pow2_pos (e + 2200) ltac:(lia)).
      set (Q := 2 ^ (- e)) in *. set (P' := 2 ^ (e + 2200)) in *.
      clearbody Q P'. nia.
    + apply V_le_cancel in Hlt; [|lia].
      apply Z.div_le_upper_bound; lia.
Qed.

Lemma to_int_in_range ovf x z :
  F64.trunc x = Some z -> Int64.min_int <= z <= Int64.max_int ->
  F64.to_int ovf x = z.
Proof.
  intros E Hz. unfold F64.to_int. rewrite E.
  destruct (Z.leb_spec Int64.min_int z), (Z.leb_spec z Int64.max_int);
    simpl; trivial; lia.
Qed.

(** The jitter that calcDelay adds, for a clamped jitter [j] and a random
    value in [0, 1): an int64 that is less than [j]; and at least [-j] when
    [j] is small enough for float64 to hold it exactly. *)
Lemma signed_jitter_range ovf j r :
  0 < j <= Int64.max_int ->
  (0 <=? r)%float = true -> (r <? 1)%float = true ->
  Int64.min_int <= F64.to_int ovf (F64.of_int j * (2 * r - 1)) < j /\
  (j < 2 ^ 53 -> - j <= F64.to_int ovf (F64.of_int j * (2 * r - 1))).
Proof.
  intros Hj H0 H1.
  assert (Hj' : 0 < j < 2 ^ 63) by (unfold Int64.max_int in Hj; lia).
  pose proof (jitter_shape j r Hj' H0 H1) as H.
  assert (exists z, F64.trunc (F64.of_int j * (2 * r - 1)) = Some z /\
                    - 2 ^ 63 <= z < j /\ (j < 2 ^ 53 -> - j <= z))
    as (z & Ez & Hz & Hs).
  { unfold F64.trunc.
    destruct (Prim2SF (F64.of_int j * (2 * r - 1))) as [s|s| |s m e];
      try contradiction.
    - exists 0. split; [reflexivity|lia].
    - destruct s.
      + destruct H as (He & H & Hsm).
        replace (V (2 ^ 52) 11) with (V (2 ^ 63) 0) in H.
        2:{ unfold V. replace (11 + 2200) with (11 + (0 + 2200)) by lia.
            rewrite (Z.pow_add_r 2 11) by lia. rewrite Z.mul_assoc.
            f_equal. }
        destruct (trunc_magnitude m e (2 ^ 63) He ltac:(lia)) as (A0 & _ & A2).
        destruct (trunc_magnitude m e j He ltac:(lia)) as (_ & _ & A3).
        specialize (A2 H). cbv zeta in A0, A2, A3.
        eexists. split; [reflexivity|]. cbv zeta. split; [lia|].
        intros Hsmall. specialize (A3 (Hsm Hsmall)). lia.
      + destruct H as [He H].
        destruct (trunc_magnitude m e j He ltac:(lia)) as (A0 & A1 & _).
        specialize (A1 H). cbv zeta in A0, A1.
        eexists. split; [reflexivity|]. cbv zeta. lia. }
  rewrite (to_int_in_range ovf _ z Ez);
    unfold Int64.min_int, Int64.max_int in *; lia.
Qed.

(** * Properties of the loop *)

Section TryFacts.

Context {error : Type}.
Variable env : Env.

Implicit Types (tr : Tryer error) (run : Run error) (l : list (event error)).

Lemma calls_app l1 l2 : calls (l1 ++ l2) = calls l1 ++ calls l2.
Proof.
  induction l1 as [|[]]; simpl; congruence.
Qed.

Lemma consulted_app l1 l2 :
  consulted (l1 ++ l2) = consulted l1 ++ consulted l2.
Proof.
  induction l1 as [|[]]; simpl; congruence.
Qed.

Lemma attempts_S i : attempts (S i) = attempts i ++ [Z.of_nat i].
Proof.
  unfold attempts. rewrite seq_S, map_app. reflexivity.
Qed.

Lemma attempts_length i : length (attempts i) = i.
Proof.
  unfold attempts. now rewrite length_map, length_seq.
Qed.

Lemma errors_of_app run (a b : list Z) :
  errors_of run (a ++ b) = errors_of run a ++ errors_of run b.
Proof.
  unfold errors_of. apply flat_map_app.
Qed.

(** calcDelay calls nothing but the random source, at most once. *)
Lemma calcDelay_log tr n k :
  exists d k' w, calcDelay env tr n k = (d, k', w) /\
                 (w = [] \/ w = [EvRand]) /\
                 calls w = [] /\ consulted w = [].
Proof.
  unfold calcDelay.
  match goal with |- context [if ?c then bind _ _ else _] => destruct c end.
  - unfold bind, randFloat, ret; simpl. eexists _, _, _. eauto.
  - unfold ret. eexists _, _, _. eauto.
Qed.

(** Adding fuel does not change a result. *)
Lemma Try_from_more_fuel tr run : forall fuel extra n k out,
  Try_from env fuel tr run n k = Some out ->
  Try_from env (fuel + extra) tr run n k = Some out.
Proof.
  induction fuel as [|fuel IH]; intros extra n k out; simpl; [discriminate|].
  destruct (body env tr run n k) as [[[r|n'|] k1] l1];
    [trivial| |discriminate].
  destruct (Try_from env fuel tr run n' k1) as [[r l2]|] eqn:E; [|discriminate].
  intros H. now rewrite (IH extra _ _ _ E).
Qed.

(** *** One iteration *)

Lemma unretryable_eq tr e k :
  unretryable tr e k = (negb (accepts tr e), k, asked tr e).
Proof.
  unfold unretryable, accepts, asked.
  destruct (IsRetryable tr); reflexivity.
Qed.

Lemma budget_left_test tr made :
  budget_left tr made -> (Max tr >=? 0) && (made >=? Max tr) = false.
Proof.
  unfold budget_left. intros H.
  destruct (Z.geb_spec (Max tr) 0), (Z.geb_spec made (Max tr)); simpl; trivial; lia.
Qed.

Lemma budget_spent_test tr made :
  0 <= Max tr -> Max tr <= made -> (Max tr >=? 0) && (made >=? Max tr) = true.
Proof.
  intros H1 H2.
  destruct (Z.geb_spec (Max tr) 0), (Z.geb_spec made (Max tr)); simpl; trivial; lia.
Qed.

Lemma body_success tr run n k :
  f run n = None -> body env tr run n k = (Return Nil, k, [EvCall n]).
Proof.
  intros H. unfold body, bind, log, ret. rewrite H. reflexivity.
Qed.

Lemma body_exhausted tr run n k e :
  f run n = Some e -> 0 <= Max tr -> Max tr <= Int64.wrap (n + 1) ->
  body env tr run n k = (Return (MaxTriesError e), k, [EvCall n]).
Proof.
  intros H H1 H2. unfold body, bind, log, ret. rewrite H.
  rewrite (budget_spent_test _ _ H1 H2). reflexivity.
Qed.

Lemma body_unretryable tr run n k e :
  f run n = Some e -> budget_left tr (Int64.wrap (n + 1)) ->
  accepts tr e = false ->
  body env tr run n k =
    (Return (UnretryableError e), k, [EvCall n; EvIsRetryable e]).
Proof.
  intros H H1 H2. unfold body, bind at 1, log, ret. rewrite H.
  rewrite (budget_left_test _ _ H1). unfold bind.
  rewrite unretryable_eq, H2. simpl.
  unfold asked. unfold accepts in H2.
  destruct (IsRetryable tr); [reflexivity | discriminate].
Qed.

Lemma body_wait tr run n k e :
  f run n = Some e -> budget_left tr (Int64.wrap (n + 1)) ->
  accepts tr e = true ->
  body env tr run n k =
    let '(d, k', l) := calcDelay env tr (Int64.wrap (n + 1)) k in
    (match select_ run n d with
     | CtxDone cause => Return (ContextError cause)
     | TimerFired => Again (Int64.wrap (n + 1))
     | Blocked => Hangs
     end, k', EvCall n :: asked tr e ++ l ++ [EvAfter d]).
Proof.
  intros H H1 H2. unfold body, bind at 1, log, ret. rewrite H.
  rewrite (budget_left_test _ _ H1). unfold bind.
  rewrite unretryable_eq, H2. simpl.
  destruct (calcDelay env tr (Int64.wrap (n + 1)) k) as [[d k'] l].
  unfold after, log.
  destruct (select_ run n d); simpl; rewrite ?app_nil_r; reflexivity.
Qed.

Lemma consulted_asked tr e :
  consulted (asked tr e) =
  match IsRetryable tr with Some _ => [e] | None => [] end.
Proof.
  unfold asked. destruct (IsRetryable tr); reflexivity.
Qed.

Lemma calls_asked tr e : calls (asked tr e) = [].
Proof.
  unfold asked. destruct (IsRetryable tr); reflexivity.
Qed.

(** An attempt that fails retryably within the budget, followed by a wait
    that the timer ends: the loop goes round with the next number. *)
Lemma body_again tr run n k :
  fails_then_waits tr run n -> budget_left tr (Int64.wrap (n + 1)) ->
  exists k' l,
    body env tr run n k = (Again (Int64.wrap (n + 1)), k', l) /\
    calls l = [n] /\
    consulted l = match IsRetryable tr with
                  | Some _ => errors_of run [n]
                  | None => []
                  end.
Proof.
  intros (e & Hf & Ha & Hs) Hb.
  rewrite (body_wait _ _ _ _ _ Hf Hb Ha).
  destruct (calcDelay_log tr (Int64.wrap (n + 1)) k)
    as (d & k' & w & E & _ & Cw & Qw).
  rewrite E, Hs. eexists _, _. split; [reflexivity|].
  simpl. rewrite !calls_app, !consulted_app, calls_asked, consulted_asked.
  rewrite Cw, Qw. unfold errors_of. simpl. rewrite Hf.
  destruct (IsRetryable tr); auto.
Qed.

(** *** Several iterations *)

Lemma Try_from_retries tr run : forall (b a : nat) k,
  Z.of_nat (a + b) <= Int64.max_int ->
  (forall j, (a <= j < a + b)%nat ->
     fails_then_waits tr run (Z.of_nat j) /\
     budget_left tr (Z.of_nat j + 1)) ->
  exists k' pre,
    calls pre = map Z.of_nat (seq a b) /\
    consulted pre = match IsRetryable tr with
                    | Some _ => errors_of run (map Z.of_nat (seq a b))
                    | None => []
                    end /\
    (b = 0%nat -> pre = []) /\
    forall fuel,
      Try_from env (b + fuel) tr run (Z.of_nat a) k =
      match Try_from env fuel tr run (Z.of_nat (a + b)) k' with
      | Some (r, l) => Some (r, pre ++ l)
      | None => None
      end.
Proof.
  induction b as [|b IH]; intros a k Hr H.
  - exists k, []. repeat split.
    + now destruct (IsRetryable tr).
    + intros fuel. rewrite Nat.add_0_r. simpl.
      now destruct (Try_from env fuel tr run (Z.of_nat a) k) as [[]|].
  - assert (Hw : Int64.wrap (Z.of_nat a + 1) = Z.of_nat (S a)).
    { rewrite wrap_in_range; [lia|].
      unfold Int64.in_range, Int64.min_int, Int64.max_int in *. lia. }
    destruct (H a ltac:(lia)) as [Hf Hb].
    destruct (body_again tr run (Z.of_nat a) k Hf) as (k1 & l1 & E1 & C1 & Q1).
    { rewrite Hw. unfold budget_left in *. lia. }
    destruct (IH (S a) k1) as (k' & pre & C2 & Q2 & _ & E2).
    { lia. }
    { intros j Hj. apply H. lia. }
    exists k', (l1 ++ pre). repeat split.
    + rewrite calls_app, C1, C2. reflexivity.
    + rewrite consulted_app, Q1, Q2.
      destruct (IsRetryable tr); [|reflexivity].
      change (map Z.of_nat (seq a (S b)))
        with ([Z.of_nat a] ++ map Z.of_nat (seq (S a) b)).
      now rewrite errors_of_app.
    + discriminate.
    + intros fuel. simpl. rewrite E1, Hw, E2.
      replace (S a + b)%nat with (a + S b)%nat by lia.
      destruct (Try_from env fuel tr run (Z.of_nat (a + S b)) k') as [[r l]|];
        [now rewrite app_assoc | reflexivity].
Qed.

(** With a negative Max no iteration returns MaxTriesError. *)
Lemma body_unlimited tr run n k r k' l :
  Max tr < 0 -> body env tr run n k = (Return r, k', l) ->
  is_MaxTries r = false.
Proof.
  intros HM. unfold body, bind at 1, log, ret.
  destruct (f run n) as [e|]; [|intros H; inversion H; reflexivity].
  rewrite (budget_left_test tr _ (or_introl HM)).
  unfold bind. rewrite unretryable_eq.
  destruct (negb (accepts tr e)); simpl.
  - intros H; inversion H; reflexivity.
  - destruct (calcDelay env tr (Int64.wrap (n + 1)) k) as [[d k1] l1].
    unfold after, log.
    destruct (select_ run n d); intros H; inversion H; reflexivity.
Qed.

Lemma Try_from_unlimited tr run : forall fuel n k r t,
  Max tr < 0 -> Try_from env fuel tr run n k = Some (r, t) ->
  is_MaxTries r = false.
Proof.
  induction fuel as [|fuel IH]; intros n k r t HM; simpl; [discriminate|].
  destruct (body env tr run n k) as [[[r1|n'|] k1] l1] eqn:E.
  - intros H; inversion H; subst. eapply body_unlimited; eauto.
  - destruct (Try_from env fuel tr run n' k1) as [[r2 l2]|] eqn:E2;
      [|discriminate].
    intros H; inversion H; subst. eapply IH; eauto.
  - discriminate.
Qed.

(** The run that spends a budget of [m] attempts: [m - 1] retried
    failures, then a failure that is the last one allowed. *)
Lemma Try_spends_budget tr run (m : nat) e :
  Z.of_nat m = Z.max (Max tr) 1 -> 0 <= Max tr <= Int64.max_int ->
  (forall j, (j + 1 < m)%nat -> fails_then_waits tr run (Z.of_nat j)) ->
  f run (Z.of_nat m - 1) = Some e ->
  exists pre,
    calls pre = attempts (m - 1) /\
    consulted pre = match IsRetryable tr with
                    | Some _ => errors_of run (attempts (m - 1))
                    | None => []
                    end /\
    (Max tr <= 1 -> pre = []) /\
    forall fuel, (m <= fuel)%nat ->
      Try env fuel tr run =
      Some (MaxTriesError e, pre ++ [EvCall (Z.of_nat m - 1)]).
Proof.
  intros Hm HM Hf He.
  assert (Hm1 : (1 <= m)%nat) by lia.
  destruct (Try_from_retries tr run (m - 1) 0 0%nat) as (k' & pre & C & Q & N & E).
  { unfold Int64.max_int in *. lia. }
  { intros j Hj. split; [apply Hf; lia|]. right. lia. }
  assert (Hlast : forall fuel,
    Try_from env (S fuel) tr run (Z.of_nat (0 + (m - 1))) k' =
    Some (MaxTriesError e, [EvCall (Z.of_nat m - 1)])).
  { intros fuel.
    replace (Z.of_nat (0 + (m - 1))) with (Z.of_nat m - 1) by lia.
    cbn [Try_from]. rewrite (body_exhausted tr run _ k' e He); [reflexivity|lia|].
    rewrite wrap_in_range;
      unfold Int64.in_range, Int64.min_int, Int64.max_int in *; lia. }
  exists pre. repeat split; trivial.
  - intros Hle. apply N. lia.
  - intros fuel Hfuel. unfold Try.
    replace fuel with ((m - 1) + S (fuel - m))%nat by lia.
    rewrite E, Hlast. reflexivity.
Qed.

End TryFacts.

(** * The claims about Try *)

Section TryClaims.

Context {error : Type}.
Variable env : Env.

Implicit Types (tr : Tryer error) (run : Run error).

(** C1. With Max = M >= 0, a function that fails on every attempt with
    errors the predicate (if any) accepts, and waits that the context
    never interrupts, Try calls the function exactly max(M,1) times, with
    attempt numbers 0 .. max(M,1)-1, and returns MaxTriesError wrapping
    the error of the last attempt. *)
Theorem C1_always_failing_spends_budget tr run (M : Z) :
  Max tr = M -> 0 <= M <= Int64.max_int ->
  (forall j, 0 <= j < Z.max M 1 ->
     exists e, f run j = Some e /\ accepts tr e = true) ->
  (forall j d, select_ run j d = TimerFired) ->
  exists e t,
    f run (Z.max M 1 - 1) = Some e /\
    calls t = attempts (Z.to_nat (Z.max M 1)) /\
    Z.of_nat (length (calls t)) = Z.max M 1 /\
    forall fuel, (Z.to_nat (Z.max M 1) <= fuel)%nat ->
      Try env fuel tr run = Some (MaxTriesError e, t) /\
      Unwrap (MaxTriesError e) = Some e.
Proof.
  intros HM Hr Hf Hs. subst M.
  set (m := Z.to_nat (Z.max (Max tr) 1)).
  assert (Hm : Z.of_nat m = Z.max (Max tr) 1) by (unfold m; lia).
  destruct (Hf (Z.of_nat m - 1) ltac:(lia)) as (e & He & _).
  destruct (Try_spends_budget env tr run m e Hm Hr) as (pre & C & _ & _ & E).
  { intros j Hj. destruct (Hf (Z.of_nat j) ltac:(lia)) as (e' & He' & Ha').
    exists e'. auto. }
  { exact He. }
  assert (Hc : calls (pre ++ [EvCall (Z.of_nat m - 1)]) = attempts m).
  { rewrite calls_app, C. simpl.
    transitivity (attempts (S (m - 1))); [|f_equal; lia].
    rewrite attempts_S. do 2 f_equal. lia. }
  exists e, (pre ++ [EvCall (Z.of_nat m - 1)]).
  rewrite <- Hm at 1. repeat split; trivial.
  - rewrite Hc, attempts_length. exact Hm.
  - now apply E.
Qed.

(** C2. If attempts 0 .. i-1 fail with retryable errors (and their waits
    end with the timer), attempt i succeeds, and i is within the budget
    (Max negative or i < Max), Try calls the function exactly i+1 times
    and returns nil.  Success on the first call needs no budget at all:
    it returns nil after that single call, whatever Max is. *)
Theorem C2_success_on_attempt tr run (i : nat) :
  Z.of_nat i <= Int64.max_int ->
  (forall j, (j < i)%nat -> fails_then_waits tr run (Z.of_nat j)) ->
  f run (Z.of_nat i) = None ->
  (i = 0%nat \/ Max tr < 0 \/ Z.of_nat i < Max tr) ->
  exists t,
    calls t = attempts (S i) /\
    length (calls t) = S i /\
    (i = 0%nat -> t = [EvCall 0]) /\
    forall fuel, (i < fuel)%nat -> Try env fuel tr run = Some (Nil, t).
Proof.
  intros Hi Hf Hok Hb.
  destruct (Try_from_retries env tr run i 0 0%nat) as (k' & pre & C & _ & N & E).
  { exact Hi. }
  { intros j Hj. split; [apply Hf; lia|]. unfold budget_left. lia. }
  exists (pre ++ [EvCall (Z.of_nat i)]).
  assert (Hc : calls (pre ++ [EvCall (Z.of_nat i)]) = attempts (S i)).
  { rewrite calls_app, C, attempts_S. reflexivity. }
  repeat split; trivial.
  - now rewrite Hc, attempts_length.
  - intros ->. now rewrite N.
  - intros fuel Hfuel. unfold Try.
    replace fuel with (i + S (fuel - S i))%nat by lia.
    rewrite E. cbn [Try_from Nat.add].
    now rewrite (body_success env tr run _ k' Hok).
Qed.

(** C3. If the predicate is set and rejects the error of attempt i, and
    the budget is not spent by that attempt (Max negative or i+1 < Max),
    Try returns UnretryableError wrapping that error after exactly i+1
    calls of the function; after the call of the predicate nothing else
    happens: no random draw, no timer, no further attempt. *)
Theorem C3_rejected_error_stops tr run p (i : nat) e :
  Z.of_nat i <= Int64.max_int -> Max tr <= Int64.max_int ->
  IsRetryable tr = Some p ->
  (forall j, (j < i)%nat -> fails_then_waits tr run (Z.of_nat j)) ->
  f run (Z.of_nat i) = Some e -> p e = false ->
  (Max tr < 0 \/ Z.of_nat i + 1 < Max tr) ->
  exists pre,
    calls pre = attempts i /\
    length (calls (pre ++ [EvCall (Z.of_nat i); EvIsRetryable e])) = S i /\
    forall fuel, (i < fuel)%nat ->
      Try env fuel tr run =
      Some (UnretryableError e,
            pre ++ [EvCall (Z.of_nat i); EvIsRetryable e]) /\
      Unwrap (UnretryableError e) = Some e.
Proof.
  intros Hi HM Hp Hf He Hrej Hb.
  destruct (Try_from_retries env tr run i 0 0%nat) as (k' & pre & C & _ & _ & E).
  { exact Hi. }
  { intros j Hj. split; [apply Hf; lia|]. unfold budget_left. lia. }
  exists pre. repeat split; trivial.
  - rewrite calls_app, length_app, C, length_map, length_seq. simpl. lia.
  - unfold Try.
    replace fuel with (i + S (fuel - S i))%nat by lia.
    rewrite E. cbn [Try_from Nat.add].
    rewrite (body_unretryable env tr run _ k' e He); trivial.
    + unfold budget_left. destruct Hb as [Hb|Hb]; [now left|right].
      rewrite wrap_in_range; [lia|].
      unfold Int64.in_range, Int64.min_int, Int64.max_int in *. lia.
    + unfold accepts. now rewrite Hp.
Qed.


(** C8. With a negative Max, Try never returns MaxTriesError, however many
    attempts fail: whenever it returns, the result is nil, an
    UnretryableError or a ContextError. *)
Theorem C8_unlimited_never_MaxTries tr run fuel r t :
  Max tr < 0 -> Try env fuel tr run = Some (r, t) ->
  (forall e, r <> MaxTriesError e) /\
  (r = Nil \/ (exists e, r = UnretryableError e) \/
   (exists cause, r = ContextError cause)).
Proof.
  intros HM H. apply Try_from_unlimited in H; trivial.
  destruct r; try discriminate; split; try discriminate; eauto.
Qed.

(** C9. When the attempt that spends a non-negative budget fails with an
    error the predicate would reject, Try returns MaxTriesError (not
    UnretryableError) and the predicate is not called for that attempt:
    it has been called for the earlier attempts only, and the trace ends
    with the last call of the function.  With Max 0 or 1 the predicate is
    not called at all. *)
Theorem C9_budget_checked_before_predicate tr run p (m : nat) e :
  IsRetryable tr = Some p ->
  0 <= Max tr <= Int64.max_int -> Z.of_nat m = Z.max (Max tr) 1 ->
  (forall j, (j + 1 < m)%nat -> fails_then_waits tr run (Z.of_nat j)) ->
  f run (Z.of_nat m - 1) = Some e -> p e = false ->
  exists t,
    consulted t = errors_of run (attempts (m - 1)) /\
    ~ In e (consulted t) /\
    (Max tr <= 1 -> consulted t = []) /\
    (exists pre, t = pre ++ [EvCall (Z.of_nat m - 1)]) /\
    forall fuel, (m <= fuel)%nat ->
      Try env fuel tr run = Some (MaxTriesError e, t).
Proof.
  intros Hp HM Hm Hf He Hrej.
  destruct (Try_spends_budget env tr run m e Hm HM Hf He)
    as (pre & C & Q & N & E).
  rewrite Hp in Q.
  exists (pre ++ [EvCall (Z.of_nat m - 1)]).
  assert (Hq : consulted (pre ++ [EvCall (Z.of_nat m - 1)]) =
               errors_of run (attempts (m - 1))).
  { rewrite consulted_app, Q. simpl. apply app_nil_r. }
  repeat split; trivial.
  - rewrite Hq. unfold errors_of, attempts.
    rewrite in_flat_map. intros (j & Hj & Hin).
    apply in_map_iff in Hj. destruct Hj as (j' & <- & Hj').
    apply in_seq in Hj'.
    destruct (Hf j' ltac:(lia)) as (e' & He' & Ha' & _).
    rewrite He' in Hin. destruct Hin as [->|[]].
    unfold accepts in Ha'. rewrite Hp in Ha'. congruence.
  - intros Hle. now rewrite (N Hle).
  - now exists pre.
Qed.

End TryClaims.

(** * The claims about calcDelay *)

Section DelayClaims.

Context {error : Type}.

Implicit Types (tr : Tryer error) (env : Env).

Lemma delay_of_pure env tr1 tr2 n k1 k2 :
  Delay tr1 = Delay tr2 -> Jitter tr1 = Jitter tr2 ->
  Scale tr1 = Scale tr2 -> MaxDelay tr1 = MaxDelay tr2 ->
  drawn env tr1 k1 = drawn env tr2 k2 ->
  delay_of env tr1 n k1 = delay_of env tr2 n k2.
Proof.
  unfold delay_of, drawn, calcDelay. intros -> -> -> -> Hr.
  match goal with |- context [if ?c then bind _ _ else _] => destruct c end;
    [|reflexivity].
  unfold bind, ret, randFloat in *. simpl in *. now rewrite Hr.
Qed.

(** calcDelay, step by step: scale, cap, clamp the jitter, then draw and
    add the signed jitter when the clamped jitter is positive. *)
Lemma calcDelay_steps env tr n k :
  calcDelay env tr n k =
  let scaled := scaled_delay env tr n in
  let capped :=
    if (MaxDelay tr >? 0) && (scaled >? MaxDelay tr) then MaxDelay tr
    else scaled in
  let j := if Jitter tr >? capped then capped else Jitter tr in
  if j >? 0 then
    (Int64.wrap (capped + signed_jitter env j (drawn env tr k)), S k, [EvRand])
  else (capped, k, []).
Proof.
  unfold calcDelay, scaled_delay, signed_jitter, drawn. cbv zeta.
  match goal with |- context [if ?c then bind _ _ else _] => destruct c end;
    reflexivity.
Qed.

(** C5. The delay is a function of the attempt count, the policy's
    numeric fields and the value drawn; and with Delay 100ms, Jitter 50ms,
    Scale 0.5, no MaxDelay and the random values 0.1, 0.9, 0.2 in turn,
    the delays for n = 1, 2, 3 are 60ms, 190ms and 195ms.  [math.Pow] is
    used at 1.5^0, 1.5^1 and 1.5^2 only, where it is exact. *)
Theorem C5_calcDelay_test_values env tr :
  math_Pow env 1.5 0 = 1%float ->
  math_Pow env 1.5 1 = 1.5%float ->
  math_Pow env 1.5 2 = 2.25%float ->
  Delay tr = 100 * 1000000 -> Jitter tr = 50 * 1000000 ->
  Scale tr = 0.5%float -> MaxDelay tr = 0 ->
  Rand tr = Some (floats_in_turn [0.1; 0.9; 0.2]%float) ->
  (calcDelay env tr 1 0%nat = (60 * 1000000, 1%nat, [EvRand]) /\
   calcDelay env tr 2 1%nat = (190 * 1000000, 2%nat, [EvRand]) /\
   calcDelay env tr 3 2%nat = (195 * 1000000, 3%nat, [EvRand])) /\
  (forall tr' n k k',
     Delay tr' = Delay tr -> Jitter tr' = Jitter tr ->
     Scale tr' = Scale tr -> MaxDelay tr' = MaxDelay tr ->
     drawn env tr' k' = drawn env tr k ->
     delay_of env tr' n k' = delay_of env tr n k).
Proof.
  intros P0 P1 P2 HD HJ HS HM HR. split.
  - unfold calcDelay, bind, ret, randFloat.
    rewrite HD, HJ, HS, HM, HR.
    change (1 + 0.5)%float with 1.5%float.
    change (F64.of_int (Int64.wrap (1 - 1))) with 0%float.
    change (F64.of_int (Int64.wrap (2 - 1))) with 1%float.
    change (F64.of_int (Int64.wrap (3 - 1))) with 2%float.
    rewrite P0, P1, P2.
    repeat split; vm_compute; reflexivity.
  - intros tr' n k k'. apply delay_of_pure.
Qed.

(** C6 fails on the code.  float64 holds 53 bits: converting the jitter
    2^53 + 3 rounds it up to 2^53 + 4, so with the random value 0 the
    jitter subtracted is one nanosecond more than the delay it was clamped
    to, and calcDelay returns -1. *)
Theorem C6_jitter_rounded_up_gives_negative_delay env :
  let policy : Tryer error := long_delay_policy in
  0 <= Delay policy /\ 0 <= Jitter policy /\ 0 <= MaxDelay policy /\
  Int64.in_range (Delay policy) /\
  drawn env policy 0 = 0%float /\
  F64.of_int (Jitter policy) = F64.of_int (2 ^ 53 + 4) /\
  delay_of env policy 1 0 = -1.
Proof.
  repeat split; vm_compute; congruence.
Qed.

(** C7. With a ceiling (MaxDelay > 0), for every attempt count and every
    random value in [0, 1): the ceiling is applied before the jitter, that
    is, the delay before jitter is min(scaled delay, MaxDelay) and the
    jitter is clamped to it; and when the result exceeds MaxDelay, it does
    so by less than min(Jitter, MaxDelay). *)
Theorem C7_ceiling_before_jitter env tr n k :
  0 < MaxDelay tr <= Int64.max_int ->
  (0 <=? drawn env tr k)%float = true -> (drawn env tr k <? 1)%float = true ->
  let capped := Z.min (scaled_delay env tr n) (MaxDelay tr) in
  let jitter := Z.min (Jitter tr) capped in
  delay_of env tr n k =
    (if 0 <? jitter
     then Int64.wrap (capped + signed_jitter env jitter (drawn env tr k))
     else capped) /\
  (MaxDelay tr < delay_of env tr n k ->
   delay_of env tr n k - MaxDelay tr < Z.min (Jitter tr) (MaxDelay tr)).
Proof.
  intros HM H0 H1 capped jitter.
  assert (E : delay_of env tr n k =
              if 0 <? jitter
              then Int64.wrap (capped + signed_jitter env jitter (drawn env tr k))
              else capped).
  { unfold delay_of. rewrite calcDelay_steps. cbv zeta.
    replace (if (MaxDelay tr >? 0) && (scaled_delay env tr n >? MaxDelay tr)
             then MaxDelay tr else scaled_delay env tr n) with capped.
    2:{ unfold capped.
        destruct (Z.gtb_spec (MaxDelay tr) 0),
                 (Z.gtb_spec (scaled_delay env tr n) (MaxDelay tr));
          simpl; lia. }
    replace (if Jitter tr >? capped then capped else Jitter tr) with jitter.
    2:{ unfold jitter. destruct (Z.gtb_spec (Jitter tr) capped); lia. }
    rewrite Z.gtb_ltb. destruct (0 <? jitter); reflexivity. }
  split; [exact E|]. rewrite E.
  destruct (Z.ltb_spec 0 jitter) as [Hj|Hj].
  - assert (Hjm : 0 < jitter <= Int64.max_int) by (unfold jitter, capped in *; lia).
    pose proof (proj1 (signed_jitter_range (out_of_range env) jitter
                         (drawn env tr k) Hjm H0 H1)) as Hz.
    fold (signed_jitter env jitter (drawn env tr k)) in Hz.
    set (z := signed_jitter env jitter (drawn env tr k)) in *.
    unfold Int64.min_int, Int64.max_int in *.
    destruct (Z_le_gt_dec (capped + z) (2 ^ 63 - 1)) as [Hin|Hout].
    + rewrite wrap_in_range
        by (unfold Int64.in_range, Int64.min_int, Int64.max_int; lia).
      lia.
    + rewrite wrap_overflow by (unfold Int64.max_int; lia). lia.
  - unfold capped. lia.
Qed.

(** Where the clamp does keep the delay from going negative: when the
    scaled delay is at least 0 and at most 2^62 nanoseconds, MaxDelay is not
    negative and Jitter is below 2^53 nanoseconds (so that float64 holds the
    clamped jitter exactly), calcDelay returns a non-negative delay for
    every random value in [0, 1). *)
Theorem delay_nonneg_when_jitter_exact env tr n k :
  0 <= scaled_delay env tr n <= 2 ^ 62 ->
  0 <= MaxDelay tr -> Jitter tr < 2 ^ 53 ->
  (0 <=? drawn env tr k)%float = true -> (drawn env tr k <? 1)%float = true ->
  0 <= delay_of env tr n k.
Proof.
  intros Hs HM HJ H0 H1. unfold delay_of. rewrite calcDelay_steps. cbv zeta.
  set (capped := if (MaxDelay tr >? 0) && (scaled_delay env tr n >? MaxDelay tr)
                 then MaxDelay tr else scaled_delay env tr n).
  assert (Hc : 0 <= capped <= 2 ^ 62).
  { unfold capped.
    destruct (Z.gtb_spec (MaxDelay tr) 0),
             (Z.gtb_spec (scaled_delay env tr n) (MaxDelay tr)); simpl; lia. }
  set (j := if Jitter tr >? capped then capped else Jitter tr).
  assert (Hj : j <= capped /\ j <= Jitter tr).
  { unfold j. destruct (Z.gtb_spec (Jitter tr) capped); lia. }
  destruct (Z.gtb_spec j 0) as [Hpos|Hneg]; simpl; [|lia].
  assert (Hjm : 0 < j <= Int64.max_int) by (unfold Int64.max_int; lia).
  destruct (signed_jitter_range (out_of_range env) j (drawn env tr k)
              Hjm H0 H1) as [Hz Hlow].
  fold (signed_jitter env j (drawn env tr k)) in Hz, Hlow.
  specialize (Hlow ltac:(lia)).
  rewrite wrap_in_range;
    unfold Int64.in_range, Int64.min_int, Int64.max_int in *; lia.
Qed.

End DelayClaims.

(** * Every run of the loop *)

Section RunFacts.

Context {error : Type}.
Variable env : Env.

Implicit Types (tr : Tryer error) (run : Run error) (l : list (event error)).

Lemma budget_test_false tr made :
  (Max tr >=? 0) && (made >=? Max tr) = false -> budget_left tr made.
Proof.
  unfold budget_left.
  destruct (Z.geb_spec (Max tr) 0), (Z.geb_spec made (Max tr)); simpl;
    intros; try discriminate; lia.
Qed.

Lemma budget_test_true tr made :
  (Max tr >=? 0) && (made >=? Max tr) = true -> 0 <= Max tr <= made.
Proof.
  destruct (Z.geb_spec (Max tr) 0), (Z.geb_spec made (Max tr)); simpl;
    intros; try discriminate; lia.
Qed.

(** The loop with fuel and the relation describe the same runs. *)
Lemma Try_from_Returns tr run : forall fuel n k r t,
  Try_from env fuel tr run n k = Some (r, t) -> Returns env tr run n k r t.
Proof.
  induction fuel as [|fuel IH]; intros n k r t; cbn [Try_from]; [discriminate|].
  destruct (f run n) as [e|] eqn:Ef.
  - destruct ((Max tr >=? 0) && (Int64.wrap (n + 1) >=? Max tr)) eqn:Eb.
    + apply budget_test_true in Eb.
      rewrite (body_exhausted env tr run n k e Ef) by lia.
      intros H; inversion H; subst. now constructor.
    + apply budget_test_false in Eb.
      destruct (accepts tr e) eqn:Ea.
      * rewrite (body_wait env tr run n k e Ef Eb Ea).
        destruct (calcDelay env tr (Int64.wrap (n + 1)) k) as [[d k'] w] eqn:Ec.
        destruct (select_ run n d) as [cause| |] eqn:Es.
        -- intros H; inversion H; subst. econstructor; eauto.
        -- destruct (Try_from env fuel tr run (Int64.wrap (n + 1)) k')
             as [[r' t']|] eqn:Et; [|discriminate].
           intros H; inversion H; subst.
           eapply Returns_again; eauto.
        -- discriminate.
      * rewrite (body_unretryable env tr run n k e Ef Eb Ea).
        intros H; inversion H; subst. now constructor.
  - rewrite (body_success env tr run n k Ef).
    intros H; inversion H; subst. now constructor.
Qed.

Lemma Returns_Try_from tr run n k r t :
  Returns env tr run n k r t ->
  exists fuel, Try_from env fuel tr run n k = Some (r, t).
Proof.
  induction 1 as [n k Ef|n k e Ef Hb|n k e Ef Hb Ha
                 |n k e d k' w cause Ef Hb Ha Ec Es
                 |n k e d k' w r t Ef Hb Ha Ec Es _ [fuel IH]].
  - exists 1%nat. cbn [Try_from]. now rewrite (body_success env tr run n k Ef).
  - exists 1%nat. cbn [Try_from].
    now rewrite (body_exhausted env tr run n k e Ef) by lia.
  - exists 1%nat. cbn [Try_from].
    now rewrite (body_unretryable env tr run n k e Ef Hb Ha).
  - exists 1%nat. cbn [Try_from].
    now rewrite (body_wait env tr run n k e Ef Hb Ha), Ec, Es.
  - exists (S fuel). cbn [Try_from].
    now rewrite (body_wait env tr run n k e Ef Hb Ha), Ec, Es, IH.
Qed.


(** *** Reading the events of one iteration *)

Lemma afters_app l1 l2 : afters (l1 ++ l2) = afters l1 ++ afters l2.
Proof.
  induction l1 as [|[]]; simpl; congruence.
Qed.

Lemma draws_app l1 l2 : (draws (l1 ++ l2) = draws l1 + draws l2)%nat.
Proof.
  induction l1 as [|[]]; simpl; congruence.
Qed.

Lemma afters_asked tr e : afters (asked tr e) = [].
Proof.
  unfold asked. destruct (IsRetryable tr); reflexivity.
Qed.

Lemma draws_asked tr e : draws (asked tr e) = 0%nat.
Proof.
  unfold asked. destruct (IsRetryable tr); reflexivity.
Qed.

(** What calcDelay logs: nothing, or one call of the random source, and
    the state of the random source moves by as much. *)
Lemma calcDelay_events tr n k d k' w :
  calcDelay env tr n k = (d, k', w) ->
  calls w = [] /\ consulted w = [] /\ afters w = [] /\
  (draws w <= 1)%nat /\ k' = (k + draws w)%nat /\
  (Jitter tr <= 0 -> draws w = 0%nat).
Proof.
  rewrite calcDelay_steps. cbv zeta.
  set (capped := if (MaxDelay tr >? 0) && (scaled_delay env tr n >? MaxDelay tr)
                 then MaxDelay tr else scaled_delay env tr n).
  destruct (Z.gtb_spec (if Jitter tr >? capped then capped else Jitter tr) 0)
    as [Hpos|Hneg]; intros H; inversion H; subst; simpl.
  - repeat split; try lia.
    intros HJ. destruct (Z.gtb_spec (Jitter tr) capped); lia.
  - repeat split; lia.
Qed.

Section OneIteration.

Variables (tr : Tryer error) (n : Z) (k : nat) (e : error)
         (d : Z) (k' : nat) (w : list (event error)).
Hypothesis Hdelay : calcDelay env tr n k = (d, k', w).

Lemma iteration_calls m : calls (EvCall m :: asked tr e ++ w ++ [EvAfter d]) = [m].
Proof.
  destruct (calcDelay_events _ _ _ _ _ _ Hdelay) as (C & _).
  simpl. now rewrite !calls_app, calls_asked, C.
Qed.

Lemma iteration_afters m : afters (EvCall m :: asked tr e ++ w ++ [EvAfter d]) = [d].
Proof.
  destruct (calcDelay_events _ _ _ _ _ _ Hdelay) as (_ & _ & A & _).
  simpl. now rewrite !afters_app, afters_asked, A.
Qed.

Lemma iteration_consulted m :
  consulted (EvCall m :: asked tr e ++ w ++ [EvAfter d]) =
  match IsRetryable tr with Some _ => [e] | None => [] end.
Proof.
  destruct (calcDelay_events _ _ _ _ _ _ Hdelay) as (_ & Q & _).
  simpl. rewrite !consulted_app, consulted_asked, Q. simpl.
  now rewrite app_nil_r.
Qed.

Lemma iteration_draws m :
  draws (EvCall m :: asked tr e ++ w ++ [EvAfter d]) = draws w.
Proof.
  simpl. rewrite !draws_app, draws_asked. simpl. lia.
Qed.

End OneIteration.


(** *** Wrap-around of the attempt number *)

Lemma wrap_wrap z : Int64.wrap (Int64.wrap z) = Int64.wrap z.
Proof.
  unfold Int64.wrap.
  replace ((z + 2 ^ 63) mod 2 ^ 64 - 2 ^ 63 + 2 ^ 63)
    with ((z + 2 ^ 63) mod 2 ^ 64) by lia.
  now rewrite Z.mod_mod by lia.
Qed.

Lemma wrap_add_l a b : Int64.wrap (Int64.wrap a + b) = Int64.wrap (a + b).
Proof.
  unfold Int64.wrap.
  replace ((a + 2 ^ 63) mod 2 ^ 64 - 2 ^ 63 + b + 2 ^ 63)
    with ((a + 2 ^ 63) mod 2 ^ 64 + b) by lia.
  rewrite Z.add_mod_idemp_l by lia. do 2 f_equal. lia.
Qed.

Lemma removelast_cons {A : Type} (a : A) (l : list A) :
  l <> [] -> removelast (a :: l) = a :: removelast l.
Proof.
  destruct l; [congruence | reflexivity].
Qed.

(** *** Facts about every run, by induction on the relation *)

Section EveryRun.

Variables (tr : Tryer error) (run : Run error).

Lemma Returns_calls_nonempty n k r t :
  Returns env tr run n k r t -> exists t', calls t = n :: t'.
Proof.
  destruct 1; simpl; eauto.
Qed.

(** The attempt numbers are consecutive, modulo 2^64. *)
Lemma Returns_numbering n k r t :
  Returns env tr run n k r t -> Int64.wrap n = n ->
  calls t = map (fun i => Int64.wrap (n + Z.of_nat i))
                (seq 0 (length (calls t))).
Proof.
  induction 1 as [n k Ef|n k e Ef Hb|n k e Ef Hb Ha
                 |n k e d k' w cause Ef Hb Ha Ec Es
                 |n k e d k' w r t Ef Hb Ha Ec Es _ IH]; intros Hn;
    try (simpl; rewrite Z.add_0_r, Hn; reflexivity).
  - rewrite (iteration_calls _ _ _ e _ _ _ Ec). simpl.
    now rewrite Z.add_0_r, Hn.
  - rewrite calls_app, (iteration_calls _ _ _ e _ _ _ Ec).
    cbn [app length seq map]. rewrite Z.add_0_r, Hn. f_equal.
    rewrite IH at 1 by apply wrap_wrap.
    rewrite <- seq_shift, map_map. apply map_ext. intros i.
    rewrite wrap_add_l. f_equal. lia.
Qed.

(** What the result says about the last call. *)
Lemma Returns_last n k r t :
  Returns env tr run n k r t ->
  let j := last (calls t) 0 in
  match r with
  | Nil => f run j = None
  | MaxTriesError e =>
      f run j = Some e /\ 0 <= Max tr <= Int64.wrap (j + 1)
  | UnretryableError e =>
      f run j = Some e /\ accepts tr e = false /\
      budget_left tr (Int64.wrap (j + 1))
  | ContextError cause =>
      exists e, f run j = Some e /\ accepts tr e = true /\
                budget_left tr (Int64.wrap (j + 1)) /\
                select_ run j (last (afters t) 0) = CtxDone cause
  end.
Proof.
  induction 1 as [n k Ef|n k e Ef Hb|n k e Ef Hb Ha
                 |n k e d k' w cause Ef Hb Ha Ec Es
                 |n k e d k' w r t Ef Hb Ha Ec Es Hr IH]; cbv zeta in *.
  - exact Ef.
  - simpl. auto.
  - simpl. auto.
  - rewrite (iteration_calls _ _ _ e _ _ _ Ec),
            (iteration_afters _ _ _ e _ _ _ Ec). simpl. eauto.
  - destruct (Returns_calls_nonempty _ _ _ _ Hr) as [t' Et].
    assert (El : last (calls ((EvCall n :: asked tr e ++ w ++ [EvAfter d]) ++ t)) 0
                 = last (calls t) 0).
    { rewrite calls_app, (iteration_calls _ _ _ e _ _ _ Ec), Et. reflexivity. }
    rewrite El. destruct r; trivial.
    destruct IH as (e' & H1 & H2 & H3 & H4). exists e'.
    repeat split; trivial.
    rewrite afters_app, (iteration_afters _ _ _ e _ _ _ Ec).
    destruct (afters t) as [|a l] eqn:Ea; [|exact H4].
    (* a cancelled run has requested the timer at least once *)
    exfalso. clear - Hr Ea. remember (ContextError Err) as r eqn:Er.
    destruct Hr; try discriminate.
    + rewrite (iteration_afters _ _ _ e _ _ _ H2) in Ea. discriminate.
    + rewrite afters_app, (iteration_afters _ _ _ e _ _ _ H2) in Ea.
      discriminate.
Qed.

(** Every call but the last one failed with an accepted error, within the
    budget. *)
Lemma Returns_earlier n k r t :
  Returns env tr run n k r t ->
  forall j, In j (removelast (calls t)) ->
    exists e, f run j = Some e /\ accepts tr e = true /\
              budget_left tr (Int64.wrap (j + 1)).
Proof.
  induction 1 as [n k Ef|n k e Ef Hb|n k e Ef Hb Ha
                 |n k e d k' w cause Ef Hb Ha Ec Es
                 |n k e d k' w r t Ef Hb Ha Ec Es Hr IH]; intros j;
    try (simpl; tauto).
  - rewrite (iteration_calls _ _ _ e _ _ _ Ec). simpl. tauto.
  - destruct (Returns_calls_nonempty _ _ _ _ Hr) as [t' Et].
    rewrite calls_app, (iteration_calls _ _ _ e _ _ _ Ec).
    cbn [app]. rewrite removelast_cons by (rewrite Et; discriminate).
    intros [<-|Hin]; eauto.
Qed.

(** The timer is requested once after every call but the last, and after
    the last one too when the context ends the wait. *)
Lemma Returns_afters n k r t :
  Returns env tr run n k r t ->
  (length (afters t) + (if is_ContextError r then 0 else 1) =
   length (calls t))%nat.
Proof.
  induction 1 as [n k Ef|n k e Ef Hb|n k e Ef Hb Ha
                 |n k e d k' w cause Ef Hb Ha Ec Es
                 |n k e d k' w r t Ef Hb Ha Ec Es Hr IH]; try reflexivity.
  - now rewrite (iteration_calls _ _ _ e _ _ _ Ec),
                (iteration_afters _ _ _ e _ _ _ Ec).
  - rewrite calls_app, afters_app, (iteration_calls _ _ _ e _ _ _ Ec),
            (iteration_afters _ _ _ e _ _ _ Ec).
    simpl. lia.
Qed.

(** The delays requested are those of calcDelay, called with the number of
    attempts made and threading the random source. *)
Lemma Returns_delays n k r t :
  Returns env tr run n k r t ->
  afters t =
  expected_delays env tr (length (afters t)) (Int64.wrap (n + 1)) k.
Proof.
  induction 1 as [n k Ef|n k e Ef Hb|n k e Ef Hb Ha
                 |n k e d k' w cause Ef Hb Ha Ec Es
                 |n k e d k' w r t Ef Hb Ha Ec Es Hr IH]; try reflexivity.
  - rewrite (iteration_afters _ _ _ e _ _ _ Ec). simpl. now rewrite Ec.
  - rewrite afters_app, (iteration_afters _ _ _ e _ _ _ Ec).
    cbn [app length expected_delays]. rewrite Ec. f_equal. exact IH.
Qed.

(** The random source is called at most once per wait, and not at all
    when Jitter is not positive. *)
Lemma Returns_draws n k r t :
  Returns env tr run n k r t ->
  (draws t <= length (afters t))%nat /\ (Jitter tr <= 0 -> draws t = 0%nat).
Proof.
  induction 1 as [n k Ef|n k e Ef Hb|n k e Ef Hb Ha
                 |n k e d k' w cause Ef Hb Ha Ec Es
                 |n k e d k' w r t Ef Hb Ha Ec Es Hr IH];
    try (simpl; split; [lia|reflexivity]).
  - destruct (calcDelay_events _ _ _ _ _ _ Ec) as (_ & _ & _ & D1 & _ & D0).
    rewrite (iteration_afters _ _ _ e _ _ _ Ec), iteration_draws. simpl.
    split; [lia|exact D0].
  - destruct (calcDelay_events _ _ _ _ _ _ Ec) as (_ & _ & _ & D1 & _ & D0).
    rewrite afters_app, draws_app, (iteration_afters _ _ _ e _ _ _ Ec),
            iteration_draws.
    simpl. split; [lia|]. intros HJ. rewrite (D0 HJ). now apply IH.
Qed.

(** The predicate is called once for every failed call, in order, except
    for the call that spends the budget. *)
Lemma Returns_consulted n k r t :
  Returns env tr run n k r t ->
  consulted t =
  match IsRetryable tr with
  | None => []
  | Some _ =>
      errors_of run (if is_MaxTries r then removelast (calls t) else calls t)
  end.
Proof.
  induction 1 as [n k Ef|n k e Ef Hb|n k e Ef Hb Ha
                 |n k e d k' w cause Ef Hb Ha Ec Es
                 |n k e d k' w r t Ef Hb Ha Ec Es Hr IH].
  - unfold errors_of. simpl. rewrite Ef. now destruct (IsRetryable tr).
  - simpl. now destruct (IsRetryable tr).
  - unfold errors_of, accepts in *. simpl. rewrite Ef.
    destruct (IsRetryable tr); [reflexivity|discriminate].
  - rewrite (iteration_consulted _ _ _ e _ _ _ Ec),
            (iteration_calls _ _ _ e _ _ _ Ec).
    unfold errors_of. simpl. rewrite Ef. now destruct (IsRetryable tr).
  - destruct (Returns_calls_nonempty _ _ _ _ Hr) as [t' Et].
    rewrite consulted_app, calls_app, (iteration_consulted _ _ _ e _ _ _ Ec),
            (iteration_calls _ _ _ e _ _ _ Ec), IH.
    destruct (IsRetryable tr); [|reflexivity].
    cbn [app].
    assert (E : (if is_MaxTries r then removelast (n :: calls t)
                 else n :: calls t) =
                [n] ++ (if is_MaxTries r then removelast (calls t) else calls t)).
    { destruct (is_MaxTries r); [|reflexivity].
      apply removelast_cons. rewrite Et. discriminate. }
    rewrite E, errors_of_app. f_equal.
    unfold errors_of. simpl. now rewrite Ef.
Qed.

(** A run that ends with MaxTriesError has gone up to the budget. *)
Lemma Returns_spent_count n k r t :
  Returns env tr run n k r t -> is_MaxTries r = true ->
  0 <= n < Z.max (Max tr) 1 -> Max tr <= Int64.max_int ->
  0 <= Max tr /\
  n + Z.of_nat (length (calls t)) = Z.max (Max tr) 1.
Proof.
  induction 1 as [n k Ef|n k e Ef Hb|n k e Ef Hb Ha
                 |n k e d k' w cause Ef Hb Ha Ec Es
                 |n k e d k' w r t Ef Hb Ha Ec Es Hr IH]; intros Hm Hn HM;
    try discriminate.
  - rewrite wrap_in_range in Hb
      by (unfold Int64.in_range, Int64.min_int, Int64.max_int in *; lia).
    simpl. lia.
  - assert (H0 : 0 <= Max tr).
    { pose proof (Returns_last _ _ _ _ Hr) as L. cbv zeta in L.
      destruct r; try discriminate. lia. }
    unfold budget_left in Hb.
    rewrite wrap_in_range in Hb, IH
      by (unfold Int64.in_range, Int64.min_int, Int64.max_int in *; lia).
    destruct (IH Hm ltac:(lia) HM) as [_ IH'].
    split; [exact H0|].
    rewrite calls_app, (iteration_calls _ _ _ e _ _ _ Ec).
    cbn [app length]. lia.
Qed.

End EveryRun.

End RunFacts.

(** * What holds of every call of Try *)

Section TryProperties.

Context {error : Type}.
Variable env : Env.

Implicit Types (tr : Tryer error) (run : Run error).

Lemma last_app_nonempty {A : Type} (l l' : list A) (d : A) :
  l' <> [] -> last (l ++ l') d = last l' d.
Proof.
  intros Hl. induction l as [|a l IH]; [reflexivity|].
  cbn [app]. rewrite <- IH.
  destruct (l ++ l') eqn:E; [|reflexivity].
  apply app_eq_nil in E. tauto.
Qed.

Lemma nth_attempt_small (i : nat) :
  Z.of_nat i < 2 ^ 63 -> nth_attempt i = Z.of_nat i.
Proof.
  intros H. apply wrap_in_range.
  unfold Int64.in_range, Int64.min_int, Int64.max_int. lia.
Qed.

(** With a budget and no wait that blocks for ever, the loop returns
    before the fuel [max(Max,1) - n] runs out, whatever the function
    returns and whatever the predicate and the context do. *)
Lemma Try_from_within_budget tr run :
  0 <= Max tr <= Int64.max_int ->
  (forall n d, select_ run n d <> Blocked) ->
  forall (b : nat) n k,
    0 <= n -> n + Z.of_nat b + 1 = Z.max (Max tr) 1 ->
    exists r t,
      (length (calls t) <= S b)%nat /\
      forall fuel, (S b <= fuel)%nat ->
        Try_from env fuel tr run n k = Some (r, t).
Proof.
  intros HM Hnb. induction b as [|b IH]; intros n k Hn Hb.
  - (* the attempt that spends the budget *)
    assert (Hw : Int64.wrap (n + 1) = n + 1).
    { apply wrap_in_range.
      unfold Int64.in_range, Int64.min_int, Int64.max_int in *. lia. }
    destruct (f run n) as [e|] eqn:Ef.
    + exists (MaxTriesError e), [EvCall n]. split; [simpl; lia|].
      intros [|fuel] Hf; [lia|]. cbn [Try_from].
      rewrite (body_exhausted env tr run n k e Ef); [reflexivity|lia|lia].
    + exists Nil, [EvCall n]. split; [simpl; lia|].
      intros [|fuel] Hf; [lia|]. cbn [Try_from].
      now rewrite (body_success env tr run n k Ef).
  - assert (Hw : Int64.wrap (n + 1) = n + 1).
    { apply wrap_in_range.
      unfold Int64.in_range, Int64.min_int, Int64.max_int in *. lia. }
    assert (Hleft : budget_left tr (Int64.wrap (n + 1))).
    { rewrite Hw. right. lia. }
    destruct (f run n) as [e|] eqn:Ef.
    + destruct (accepts tr e) eqn:Ha.
      * pose proof (body_wait env tr run n k e Ef Hleft Ha) as B.
        destruct (calcDelay env tr (Int64.wrap (n + 1)) k) as [[d k'] w] eqn:Ec.
        destruct (select_ run n d) as [cause| |] eqn:Es;
          [| |now apply Hnb in Es].
        -- exists (ContextError cause),
             (EvCall n :: asked tr e ++ w ++ [EvAfter d]).
           split.
           ++ rewrite (iteration_calls env tr _ _ e _ _ _ Ec). simpl. lia.
           ++ intros [|fuel] Hf; [lia|]. cbn [Try_from]. now rewrite B.
        -- destruct (IH (n + 1) k' ltac:(lia) ltac:(lia)) as (r & t & Hl & Ht).
           exists r, ((EvCall n :: asked tr e ++ w ++ [EvAfter d]) ++ t).
           split.
           ++ rewrite calls_app, (iteration_calls env tr _ _ e _ _ _ Ec).
              simpl. lia.
           ++ intros [|fuel] Hf; [lia|]. cbn [Try_from].
              rewrite B, Hw, (Ht fuel) by lia. reflexivity.
      * exists (UnretryableError e), [EvCall n; EvIsRetryable e].
        split; [simpl; lia|].
        intros [|fuel] Hf; [lia|]. cbn [Try_from].
        now rewrite (body_unretryable env tr run n k e Ef Hleft Ha).
    + exists Nil, [EvCall n]. split; [simpl; lia|].
      intros [|fuel] Hf; [lia|]. cbn [Try_from].
      now rewrite (body_success env tr run n k Ef).
Qed.

(** Try with a non-negative Max returns after at most max(Max,1) calls
    of the function, provided no wait blocks for ever: in every wait that
    is reached, the context ends or the timer channel delivers.  The
    select statement has no default case, so a wait in which neither
    happens never ends.  Apart from that, it holds whatever the function
    returns and whatever the predicate, the random source and the context
    do. *)
Theorem Try_returns_within_budget tr run :
  0 <= Max tr <= Int64.max_int ->
  (forall n d, select_ run n d <> Blocked) ->
  exists r t,
    Z.of_nat (length (calls t)) <= Z.max (Max tr) 1 /\
    forall fuel, (Z.to_nat (Z.max (Max tr) 1) <= fuel)%nat ->
      Try env fuel tr run = Some (r, t).
Proof.
  intros HM Hnb.
  destruct (Try_from_within_budget tr run HM Hnb
              (Z.to_nat (Z.max (Max tr) 1) - 1) 0 0%nat ltac:(lia) ltac:(lia))
    as (r & t & Hl & Ht).
  exists r, t. split; [lia|].
  intros fuel Hf. apply Ht. lia.
Qed.

(** Try calls the function at least once, and the i-th call (from 0) gets
    the attempt number i, modulo 2^64: the numbers are 0, 1, 2, ... as long
    as there are at most 2^63 calls. *)
Theorem Try_attempt_numbers tr run fuel r t :
  Try env fuel tr run = Some (r, t) ->
  (1 <= length (calls t))%nat /\
  hd_error t = Some (EvCall 0) /\
  calls t = map nth_attempt (seq 0 (length (calls t))) /\
  (Z.of_nat (length (calls t)) <= 2 ^ 63 ->
   calls t = attempts (length (calls t))).
Proof.
  intros H. apply Try_from_Returns in H.
  pose proof (Returns_numbering env tr run _ _ _ _ H eq_refl) as Hn.
  destruct (Returns_calls_nonempty env tr run _ _ _ _ H) as [t' Et].
  assert (Hhd : hd_error t = Some (EvCall 0)) by (destruct H; reflexivity).
  split; [rewrite Et; simpl; lia|]. split; [exact Hhd|]. split; [exact Hn|].
  intros Hc. rewrite Hn at 1. unfold attempts.
  apply map_ext_in. intros i Hi. apply in_seq in Hi.
  apply nth_attempt_small. lia.
Qed.

(** Try returns nil exactly when the last call of the function succeeded. *)
Theorem Try_nil_iff_last_call_succeeded tr run fuel r t :
  Try env fuel tr run = Some (r, t) ->
  (r = Nil <-> f run (last (calls t) 0) = None).
Proof.
  intros H. apply Try_from_Returns in H.
  pose proof (Returns_last env tr run _ _ _ _ H) as L. cbv zeta in L.
  destruct r as [|e|e|c]; split; trivial; try discriminate; intros E.
  - destruct L as [L _]. congruence.
  - destruct L as [L _]. congruence.
  - destruct L as (e & L & _). congruence.
Qed.

(** Unless the context ended the run, what Try returns wraps exactly what
    the last call of the function returned. *)
Theorem Try_wraps_last_error tr run fuel r t :
  Try env fuel tr run = Some (r, t) -> is_ContextError r = false ->
  Unwrap r = f run (last (calls t) 0).
Proof.
  intros H Hc. apply Try_from_Returns in H.
  pose proof (Returns_last env tr run _ _ _ _ H) as L. cbv zeta in L.
  destruct r as [|e|e|c]; simpl; try discriminate.
  - now rewrite L.
  - destruct L as [L _]. now rewrite L.
  - destruct L as [L _]. now rewrite L.
Qed.

(** A ContextError wraps the context's error seen by the select statement
    in the wait after the last call, a call that had failed with a
    retryable error; the delay of that wait is the last one requested. *)
Theorem Try_ContextError_from_last_wait tr run fuel cause t :
  Try env fuel tr run = Some (ContextError cause, t) ->
  select_ run (last (calls t) 0) (last (afters t) 0) = CtxDone cause /\
  exists e, f run (last (calls t) 0) = Some e /\ accepts tr e = true.
Proof.
  intros H. apply Try_from_Returns in H.
  pose proof (Returns_last env tr run _ _ _ _ H) as L. cbv zeta in L.
  destruct L as (e & L1 & L2 & _ & L4). eauto.
Qed.

(** MaxTriesError is returned only when the budget is spent: Max is not
    negative and the function has been called exactly max(Max,1) times. *)
Theorem Try_MaxTries_only_when_spent tr run fuel e t :
  Try env fuel tr run = Some (MaxTriesError e, t) ->
  Max tr <= Int64.max_int ->
  0 <= Max tr /\ Z.of_nat (length (calls t)) = Z.max (Max tr) 1.
Proof.
  intros H HM. apply Try_from_Returns in H.
  destruct (Returns_spent_count env tr run _ _ _ _ H eq_refl) as [H0 Hc];
    [lia|exact HM|].
  split; [exact H0|lia].
Qed.

(** UnretryableError is returned only when a predicate is set and rejects
    the error of the last call; the last error the predicate was given is
    that one. *)
Theorem Try_Unretryable_only_when_rejected tr run fuel e t :
  Try env fuel tr run = Some (UnretryableError e, t) ->
  exists p, IsRetryable tr = Some p /\ p e = false /\
            f run (last (calls t) 0) = Some e /\
            last t (EvCall 0) = EvIsRetryable e.
Proof.
  intros H. apply Try_from_Returns in H.
  pose proof (Returns_last env tr run _ _ _ _ H) as L. cbv zeta in L.
  destruct L as (L1 & L2 & _).
  unfold accepts in L2. destruct (IsRetryable tr) as [p|] eqn:Ep;
    [|discriminate].
  exists p. repeat split; trivial.
  assert (G : forall n k r t', Returns env tr run n k r t' ->
              r = UnretryableError e ->
              forall dflt, last t' dflt = EvIsRetryable e).
  { clear. induction 1 as [| | | |n k e0 d k' w r t' Ef Hb Ha Ec Es Hr IH];
      intros Er dflt; try discriminate.
    - inversion Er; subst. reflexivity.
    - rewrite <- (IH Er dflt).
      destruct (Returns_calls_nonempty env tr run _ _ _ _ Hr) as [c Et].
      apply last_app_nonempty. intros ->. discriminate. }
  exact (G _ _ _ _ H eq_refl _).
Qed.

(** Try stops at the first call that succeeds, spends the budget or fails
    with a rejected error: every call before the last one failed with an
    error the predicate accepts (if there is one), within the budget. *)
Theorem Try_earlier_calls_failed tr run fuel r t :
  Try env fuel tr run = Some (r, t) ->
  forall j, In j (removelast (calls t)) ->
    exists e, f run j = Some e /\ accepts tr e = true /\
              (Max tr < 0 \/ Int64.wrap (j + 1) < Max tr).
Proof.
  intros H. apply Try_from_Returns in H.
  exact (Returns_earlier env tr run _ _ _ _ H).
Qed.

(** The timer factory is called exactly once between two consecutive
    calls of the function, and once more after the last call exactly when
    the context ends that wait. *)
Theorem Try_timer_requests tr run fuel r t :
  Try env fuel tr run = Some (r, t) ->
  (length (afters t) + (if is_ContextError r then 0 else 1) =
   length (calls t))%nat.
Proof.
  intros H. apply Try_from_Returns in H.
  exact (Returns_afters env tr run _ _ _ _ H).
Qed.

(** The delays handed to the timer factory are calcDelay(1), calcDelay(2),
    ... in that order, the random source being threaded through them. *)
Theorem Try_delays_are_calcDelay tr run fuel r t :
  Try env fuel tr run = Some (r, t) ->
  afters t = expected_delays env tr (length (afters t)) 1 0.
Proof.
  intros H. apply Try_from_Returns in H.
  exact (Returns_delays env tr run _ _ _ _ H).
Qed.

(** The random source is called at most once per wait, and never when
    Jitter is zero or negative. *)
Theorem Try_random_draws tr run fuel r t :
  Try env fuel tr run = Some (r, t) ->
  (draws t <= length (afters t))%nat /\
  (Jitter tr <= 0 -> draws t = 0%nat).
Proof.
  intros H. apply Try_from_Returns in H.
  exact (Returns_draws env tr run _ _ _ _ H).
Qed.

(** The predicate is called once for each failed call of the function, in
    order and with that call's error, except for the call that spends the
    budget; it is given nothing else. *)
Theorem Try_predicate_calls tr run fuel r t p :
  Try env fuel tr run = Some (r, t) -> IsRetryable tr = Some p ->
  consulted t =
  errors_of run (if is_MaxTries r then removelast (calls t) else calls t).
Proof.
  intros H Hp. apply Try_from_Returns in H.
  rewrite (Returns_consulted env tr run _ _ _ _ H), Hp. reflexivity.
Qed.

(** Without a limit Try gives up on nothing but the predicate and the
    context: when Max is negative, every call of the function fails with
    an error the predicate accepts (or there is no predicate) and the
    timer ends every wait, the loop does not return, however many
    iterations it is given. *)
Theorem Try_without_limit_keeps_trying tr run :
  Max tr < 0 ->
  (forall j, exists e, f run j = Some e /\ accepts tr e = true) ->
  (forall j d, select_ run j d = TimerFired) ->
  forall fuel, Try env fuel tr run = None.
Proof.
  intros HM Hf Hs fuel. unfold Try. generalize 0 0%nat.
  induction fuel as [|fuel IH]; intros n k; [reflexivity|].
  cbn [Try_from].
  destruct (Hf n) as (e & Ef & Ha).
  rewrite (body_wait env tr run n k e Ef (or_introl HM) Ha).
  destruct (calcDelay env tr (Int64.wrap (n + 1)) k) as [[d k'] w].
  rewrite Hs, IH. reflexivity.
Qed.

End TryProperties.

(** * The wait between two attempts *)

Section WaitFacts.

Context {error : Type}.
Variable env : Env.

Implicit Types (tr : Tryer error) (run : Run error) (w : Wait error).

(** What the select statement takes when both signals arrive. *)
Lemma go_select_both w c cause t :
  done_at w = Some (c, cause) -> fires_at w = Some t ->
  (t < c -> entered w < c -> go_select w = TimerFired) /\
  (c < t -> entered w < t -> go_select w = CtxDone cause) /\
  (c <= entered w -> t <= entered w ->
   go_select w = if pick_done w then CtxDone cause else TimerFired).
Proof.
  intros Hd Hf. unfold go_select. rewrite Hd, Hf. cbv zeta.
  destruct (Z.leb_spec c (entered w)), (Z.leb_spec t (entered w)),
           (Z.ltb_spec c t), (Z.ltb_spec t c); cbn [andb];
    repeat split; intros; try lia; reflexivity.
Qed.

(** When the select statement takes [ctx.Done()]. *)
Lemma go_select_CtxDone w cause :
  go_select w = CtxDone cause ->
  exists c, done_at w = Some (c, cause) /\
    forall t, fires_at w = Some t -> t < c ->
      c <= entered w /\ pick_done w = true.
Proof.
  unfold go_select.
  destruct (done_at w) as [[c cause']|], (fires_at w) as [t|];
    try discriminate.
  - cbv zeta. intros G. exists c.
    assert (Ec : cause' = cause).
    { destruct ((c <=? entered w) && (t <=? entered w)), (pick_done w),
               (c <? t), (t <? c); inversion G; reflexivity. }
    subst cause'. split; [reflexivity|].
    intros t' Et Hlt. inversion Et; subst t'.
    destruct (Z.leb_spec c (entered w)), (Z.leb_spec t (entered w)),
             (Z.ltb_spec c t), (Z.ltb_spec t c); cbn [andb] in G;
      destruct (pick_done w); try discriminate; try lia;
      split; (lia || reflexivity).
  - intros H; inversion H; subst. exists c. split; [reflexivity|].
    discriminate.
Qed.

(** The run up to the select statement of the wait that follows attempt
    [i], when the attempts before it were retried. *)
Lemma Try_reaches_wait tr run (i : nat) e :
  Z.of_nat i <= Int64.max_int -> Max tr <= Int64.max_int ->
  (forall j, (j < i)%nat -> fails_then_waits tr run (Z.of_nat j)) ->
  f run (Z.of_nat i) = Some e -> accepts tr e = true ->
  (Max tr < 0 \/ Z.of_nat i + 1 < Max tr) ->
  exists pre d k',
    calls pre = attempts (S i) /\
    forall fuel,
      Try env (i + S fuel) tr run =
      match select_ run (Z.of_nat i) d with
      | CtxDone cause => Some (ContextError cause, pre)
      | TimerFired =>
          match Try_from env fuel tr run (Int64.wrap (Z.of_nat i + 1)) k' with
          | Some (r, l) => Some (r, pre ++ l)
          | None => None
          end
      | Blocked => None
      end.
Proof.
  intros Hi HM Hf He Ha Hb.
  destruct (Try_from_retries env tr run i 0 0%nat) as (k0 & pre & C & _ & _ & E).
  { exact Hi. }
  { intros j Hj. split; [apply Hf; lia|]. unfold budget_left. lia. }
  assert (Hb' : budget_left tr (Int64.wrap (Z.of_nat i + 1))).
  { unfold budget_left. destruct Hb as [Hb|Hb]; [now left|right].
    rewrite wrap_in_range; [lia|].
    unfold Int64.in_range, Int64.min_int, Int64.max_int in *. lia. }
  pose proof (body_wait env tr run (Z.of_nat i) k0 e He Hb' Ha) as B.
  destruct (calcDelay_log env tr (Int64.wrap (Z.of_nat i + 1)) k0)
    as (d & k1 & l & El & _ & Cl & _).
  rewrite El in B.
  exists (pre ++ EvCall (Z.of_nat i) :: asked tr e ++ l ++ [EvAfter d]), d, k1.
  split.
  - rewrite calls_app, C, attempts_S. simpl.
    now rewrite !calls_app, calls_asked, Cl.
  - intros fuel. unfold Try. rewrite E. cbn [Try_from Nat.add]. rewrite B.
    destruct (select_ run (Z.of_nat i) d); trivial.
    destruct (Try_from env fuel tr run (Int64.wrap (Z.of_nat i + 1)) k1)
      as [[r l']|]; trivial.
    now rewrite <- app_assoc.
Qed.

(** C10, amended.  In the wait that follows attempt i, when both the
    timer's signal (at time t) and the cancellation (at time c) arrive:
    - if the cancellation arrives strictly after the timer has fired and
      after the select statement has looked at its channels, Try does not
      return ContextError for that wait: it goes on with the next attempt;
    - if the timer fires strictly after the cancellation and after the
      select statement has looked, Try returns ContextError with the
      context's error;
    - if both have arrived when the select statement looks at its
      channels, the runtime's choice decides, whichever arrived first. *)
Theorem C10_first_arrival_decides_once_waiting tr fn wait (i : nat) e w
    c cause t :
  let run := timed_run fn wait in
  Z.of_nat i <= Int64.max_int -> Max tr <= Int64.max_int ->
  (forall j, (j < i)%nat -> fails_then_waits tr run (Z.of_nat j)) ->
  fn (Z.of_nat i) = Some e -> accepts tr e = true ->
  (Max tr < 0 \/ Z.of_nat i + 1 < Max tr) ->
  (forall d, wait (Z.of_nat i) d = w) ->
  done_at w = Some (c, cause) -> fires_at w = Some t ->
  exists pre k',
    calls pre = attempts (S i) /\
    (t < c -> entered w < c -> goes_on env tr run i pre k') /\
    (c < t -> entered w < t -> cancelled_in_wait env tr run i pre cause) /\
    (c <= entered w -> t <= entered w ->
     if pick_done w then cancelled_in_wait env tr run i pre cause
     else goes_on env tr run i pre k').
Proof.
  intros run Hi HM Hf He Ha Hb Hw Hd Ht.
  destruct (Try_reaches_wait tr run i e Hi HM Hf He Ha Hb)
    as (pre & d & k' & C & E).
  change (select_ run (Z.of_nat i) d) with (go_select (wait (Z.of_nat i) d)) in E.
  rewrite Hw in E.
  destruct (go_select_both w c cause t Hd Ht) as (G1 & G2 & G3).
  assert (Hgo : go_select w = TimerFired -> goes_on env tr run i pre k').
  { intros G fuel. now rewrite E, G. }
  assert (Hcx : go_select w = CtxDone cause ->
                cancelled_in_wait env tr run i pre cause).
  { intros G fuel Hfuel.
    replace fuel with (i + S (fuel - S i))%nat by lia. now rewrite E, G. }
  exists pre, k'. repeat split; trivial.
  - intros H1 H2. apply Hgo, G1; trivial.
  - intros H1 H2. apply Hcx, G2; trivial.
  - intros H1 H2. specialize (G3 H1 H2).
    destruct (pick_done w); [now apply Hcx|now apply Hgo].
Qed.

(** A ContextError is never the effect of a cancellation that arrived
    strictly after the timer fired while the select statement was already
    waiting: when Try returns ContextError, the context was done in the
    wait after the last call, with the error returned, and if the timer
    had fired strictly before, then both signals had arrived when the
    select statement looked at its channels and the runtime chose the
    context. *)
Theorem Try_ContextError_not_spurious tr fn wait fuel cause tc :
  Try env fuel tr (timed_run fn wait) = Some (ContextError cause, tc) ->
  let w := wait (last (calls tc) 0) (last (afters tc) 0) in
  exists c, done_at w = Some (c, cause) /\
    forall t, fires_at w = Some t -> t < c ->
      c <= entered w /\ pick_done w = true.
Proof.
  intros H w. apply Try_from_Returns in H.
  pose proof (Returns_last env tr _ _ _ _ _ H) as L. cbv zeta in L.
  destruct L as (e & _ & _ & _ & L).
  apply go_select_CtxDone. exact L.
Qed.

(** The select statement has no default case: if neither the context nor
    the timer channel ever delivers in the wait that follows attempt i,
    Try does not return, however many iterations of its loop are run. *)
Theorem Try_hangs_in_blocked_wait tr run (i : nat) e :
  Z.of_nat i <= Int64.max_int -> Max tr <= Int64.max_int ->
  (forall j, (j < i)%nat -> fails_then_waits tr run (Z.of_nat j)) ->
  f run (Z.of_nat i) = Some e -> accepts tr e = true ->
  (Max tr < 0 \/ Z.of_nat i + 1 < Max tr) ->
  (forall d, select_ run (Z.of_nat i) d = Blocked) ->
  forall fuel, Try env fuel tr run = None.
Proof.
  intros Hi HM Hf He Ha Hb Hs fuel.
  destruct (Try_reaches_wait tr run i e Hi HM Hf He Ha Hb)
    as (pre & d & k' & _ & E).
  destruct (Try env fuel tr run) as [out|] eqn:Et; [|reflexivity].
  unfold Try in Et.
  apply (Try_from_more_fuel env tr run fuel (i + 1)) in Et.
  specialize (E fuel). rewrite Hs in E. unfold Try in E.
  replace (i + S fuel)%nat with (fuel + (i + 1))%nat in E by lia.
  congruence.
Qed.

End WaitFacts.

(** ** Exact results in binary64 *)

Lemma V_inj_pos m1 m2 e : -2200 <= e -> V m1 e = V m2 e -> m1 = m2.
Proof.
  intros He H.
  apply Z.le_antisymm; apply (V_le_cancel _ _ e He); lia.
Qed.

(** A value that fits in 53 bits at an exponent of the format is not
    changed by rounding. *)
Lemma binary_round_aux_exact s mx ex b eb :
  0 < mx -> 0 < b < 2 ^ 53 -> -1074 <= eb <= 971 -> -2200 <= ex <= 971 ->
  V mx ex = V b eb ->
  exists m e,
    binary_round_aux prec emax s mx ex loc_Exact = S754_finite s m e /\
    V (Z.pos m) e = V b eb.
Proof.
  intros Hmx Hb Heb Hex HV. unfold binary_round_aux.
  destruct (shr_fexp_spec mx ex ltac:(lia)) as (k1 & Hk1 & He1 & Hm1 & Hx1).
  destruct (shr_fexp prec emax mx ex loc_Exact) as [mrs1 e1].
  simpl fst in *; simpl snd in *.
  destruct (round_nearest_even_spec mrs1) as [_ Hm2x].
  set (m2 := round_nearest_even (shr_m mrs1) (loc_of_shr_record mrs1)) in *.
  assert (Hdb : Zdigits2 b <= 53) by (apply Zdigits2_le; lia).
  pose proof (mag_le mx ex b eb Hmx ltac:(lia) ltac:(lia) ltac:(lia)
                ltac:(lia)) as Hmag1.
  pose proof (mag_le b eb mx ex ltac:(lia) Hmx ltac:(lia) ltac:(lia)
                ltac:(lia)) as Hmag2.
  rewrite fexp_eq in Hk1.
  assert (Hk1' : 0 <= k1) by lia.
  assert (Hq : 0 < 2 ^ k1) by (apply pow2_pos; lia).
  (* the shift is exact *)
  assert (HV2 : V m2 e1 = V b eb /\ 0 < m2).
  { destruct (Z.eq_dec k1 0) as [E0|N0].
    - assert (m2 = mx).
      { rewrite Hm2x; [rewrite Hm1, E0; apply Z.div_1_r|].
        apply Hx1. rewrite E0. apply Z.mod_1_r. }
      subst m2. replace e1 with ex by lia. rewrite H. now split.
    - assert (He1b : e1 <= eb) by lia.
      assert (Hdiv : mx = b * 2 ^ (eb - e1) * 2 ^ k1).
      { apply (V_inj_pos _ _ ex); [lia|]. rewrite HV. unfold V.
        replace (eb + 2200) with ((eb - e1) + (k1 + (ex + 2200))) by lia.
        rewrite (Z.pow_add_r 2 (eb - e1)), (Z.pow_add_r 2 k1) by lia. ring. }
      assert (Hmod : mx mod 2 ^ k1 = 0)
        by (rewrite Hdiv; apply Z.mod_mul; lia).
      destruct (Hx1 Hmod) as [Hr _].
      assert (Em2 : m2 = b * 2 ^ (eb - e1)).
      { rewrite (Hm2x Hr), Hm1, Hdiv. apply Z.div_mul. lia. }
      split.
      + rewrite Em2. apply V_align. lia.
      + rewrite Em2. pose proof (pow2_pos (eb - e1) ltac:(lia)). nia. }
  destruct HV2 as [HV2 Hm2pos].
  destruct (shr_fexp_spec m2 e1 ltac:(lia)) as (k2 & Hk2 & He3 & Hm3 & _).
  destruct (shr_fexp prec emax m2 e1 loc_Exact) as [mrs3 e3].
  simpl fst in *; simpl snd in *.
  rewrite fexp_eq in Hk2.
  pose proof (mag_le m2 e1 b eb Hm2pos ltac:(lia) ltac:(lia) ltac:(lia)
                ltac:(lia)) as Hmag3.
  pose proof (mag_le b eb m2 e1 ltac:(lia) Hm2pos ltac:(lia) ltac:(lia)
                ltac:(lia)) as Hmag4.
  assert (Ek2 : k2 = 0) by lia.
  rewrite Ek2, Z.div_1_r in Hm3. rewrite Ek2, Z.add_0_r in He3. subst e3.
  rewrite Hm3. destruct m2 as [|m|m] eqn:E; try lia.
  exists m, e1.
  assert (He1' : e1 <= 971) by lia.
  apply Z.leb_le in He1'. change (emax - prec) with 971. rewrite He1'.
  split; [reflexivity|exact HV2].
Qed.

Lemma binary_round_exact s mx ex b eb :
  0 < b < 2 ^ 53 -> -1074 <= eb <= 971 -> -2200 <= ex <= 971 ->
  V (Z.pos mx) ex = V b eb ->
  exists m e,
    binary_round prec emax s mx ex = S754_finite s m e /\
    V (Z.pos m) e = V b eb.
Proof.
  intros Hb Heb Hex HV. unfold binary_round.
  destruct (shl_align_spec mx ex (SpecFloat.fexp prec emax (Z.pos (digits2_pos mx) + ex)))
    as [Hz Hm].
  destruct (shl_align mx ex (SpecFloat.fexp prec emax (Z.pos (digits2_pos mx) + ex)))
    as [mz ez].
  simpl fst in *; simpl snd in *. rewrite fexp_eq in Hz.
  assert (HVz : V (Z.pos mz) ez = V (Z.pos mx) ex).
  { rewrite Hm. apply V_align. lia. }
  apply binary_round_aux_exact; try lia.
Qed.

(** float64(j) is exact when [j] fits in 53 bits up to a power of two. *)
Lemma of_int_exact j b eb :
  0 < j < 2 ^ 63 -> 0 < b < 2 ^ 53 -> 0 <= eb <= 971 -> j = b * 2 ^ eb ->
  exists m e,
    Prim2SF (F64.of_int j) = S754_finite false m e /\
    V (Z.pos m) e = V j 0.
Proof.
  intros Hj Hb Heb E. unfold F64.of_int. rewrite of_int_spec by exact Hj.
  assert (HV : V j 0 = V b eb).
  { rewrite E. replace 0 with (eb + - eb) at 1 by lia.
    unfold V. replace (eb + 2200) with (eb + (eb + - eb + 2200)) by lia.
    rewrite (Z.pow_add_r 2 eb) by lia. ring. }
  rewrite HV.
  apply binary_round_exact; try lia.
  rewrite Z2Pos.id by lia. exact HV.
Qed.

(** The exponent of a float that holds a positive int64. *)
Lemma exponent_of_int m e a :
  -1074 <= e -> 0 < a < 2 ^ 63 -> V (Z.pos m) e = V a 0 -> e <= 62.
Proof.
  intros He Ha H. destruct (Z_le_gt_dec e 62) as [|Hgt]; trivial. exfalso.
  unfold V in H.
  assert (2 ^ (63 + (0 + 2200)) <= 2 ^ (e + 2200))
    by (apply Z.pow_le_mono_r; lia).
  rewrite (Z.pow_add_r 2 63) in H0 by lia.
  pose proof (pow2_pos (0 + 2200) ltac:(lia)).
  set (c := 2 ^ 63) in *. assert (0 < c) by (unfold c; lia). clearbody c.
  hide_pow. nia.
Qed.

(** The product of two floats that hold integers is exact when the
    product of the integers fits in 53 bits up to a power of two. *)
Lemma mul_exact x y mx ex my ey a c b eb :
  Prim2SF x = S754_finite false mx ex ->
  Prim2SF y = S754_finite false my ey ->
  0 < a < 2 ^ 63 -> 0 < c < 2 ^ 63 ->
  V (Z.pos mx) ex = V a 0 -> V (Z.pos my) ey = V c 0 ->
  0 < b < 2 ^ 53 -> 0 <= eb <= 971 -> a * c = b * 2 ^ eb ->
  exists m e,
    Prim2SF (x * y) = S754_finite false m e /\ -1074 <= e /\
    V (Z.pos m) e = V (a * c) 0.
Proof.
  intros Ex Ey Ha Hc Va Vc Hb Heb E.
  pose proof (Prim2SF_valid x) as Hvx. rewrite Ex in Hvx.
  pose proof (Prim2SF_valid y) as Hvy. rewrite Ey in Hvy.
  pose proof (Prim2SF_valid (x * y)) as Hv.
  apply valid_finite in Hvx, Hvy.
  pose proof (exponent_of_int mx ex a ltac:(lia) Ha Va).
  pose proof (exponent_of_int my ey c ltac:(lia) Hc Vc).
  rewrite mul_spec, Ex, Ey in *. unfold SF64mul, SFmul in *. cbn [xorb] in *.
  assert (HV : V (Z.pos (mx * my)) (ex + ey) = V b eb).
  { assert (HVb : V (a * c) 0 = V b eb).
    { rewrite E. unfold V.
      replace (eb + 2200) with (eb + (0 + 2200)) by lia.
      rewrite (Z.pow_add_r 2 eb) by lia. ring. }
    rewrite <- HVb. rewrite Pos2Z.inj_mul.
    pose proof (pow2_pos (0 + 2200) ltac:(lia)) as HK.
    apply (Z.mul_reg_r _ _ (2 ^ (0 + 2200))); [lia|].
    transitivity (V (Z.pos mx) ex * V (Z.pos my) ey).
    - unfold V.
      replace (ex + ey + 2200 ) with ((ex + 1100) + (ey + 1100)) by lia.
      replace (ex + 2200) with ((ex + 1100) + 1100) by lia.
      replace (ey + 2200) with ((ey + 1100) + 1100) by lia.
      replace (0 + 2200) with (1100 + 1100) by lia.
      rewrite (Z.pow_add_r 2 (ex + 1100) (ey + 1100)),
              (Z.pow_add_r 2 (ex + 1100) 1100),
              (Z.pow_add_r 2 (ey + 1100) 1100),
              (Z.pow_add_r 2 1100 1100) by lia.
      ring.
    - rewrite Va, Vc. unfold V. ring. }
  destruct (binary_round_aux_exact false (Z.pos (mx * my)) (ex + ey) b eb
              ltac:(lia) Hb ltac:(lia) ltac:(lia) HV) as (m & e & Er & Vr).
  rewrite Er in *. exists m, e. split; [reflexivity|].
  apply valid_finite in Hv. split; [lia|].
  rewrite Vr. rewrite E. unfold V.
  replace (eb + 2200) with (eb + (0 + 2200)) by lia.
  rewrite (Z.pow_add_r 2 eb) by lia. ring.
Qed.

(** The conversion to int64 of a float that holds an int64. *)
Lemma to_int_exact ovf z m e j :
  Prim2SF z = S754_finite false m e -> -1074 <= e ->
  0 <= j <= Int64.max_int -> V (Z.pos m) e = V j 0 ->
  F64.to_int ovf z = j.
Proof.
  intros Ez He Hj HV. apply to_int_in_range;
    [|unfold Int64.min_int, Int64.max_int in *; lia].
  unfold F64.trunc. rewrite Ez. f_equal.
  destruct (Z.leb_spec 0 e) as [H|H].
  - rewrite V_int in HV by lia. unfold V in HV.
    pose proof (pow2_pos (0 + 2200) ltac:(lia)).
    apply (Z.mul_reg_r _ _ (2 ^ (0 + 2200))); lia.
  - rewrite Z.shiftr_div_pow2 by lia.
    rewrite <- (V_frac j e) in HV by lia.
    apply V_inj_pos in HV; [|lia].
    rewrite HV. apply Z.div_mul.
    pose proof (pow2_pos (- e) ltac:(lia)). lia.
Qed.

Section Doubling.

Context {error : Type}.

Implicit Types (tr : Tryer error) (env : Env).

(** With Scale 1 the scaled delay doubles with each attempt. *)
Lemma scaled_delay_doubles env tr n :
  Scale tr = 1%float -> 0 < Delay tr < 2 ^ 53 -> 1 <= n <= 63 ->
  Delay tr * 2 ^ (n - 1) <= Int64.max_int ->
  math_Pow env 2 (F64.of_int (n - 1)) = F64.of_int (2 ^ (n - 1)) ->
  scaled_delay env tr n = Delay tr * 2 ^ (n - 1).
Proof.
  intros HS HD Hn Hfit HPow. unfold scaled_delay. rewrite HS.
  change (0 <? 1)%float with true. cbv iota.
  change (1 + 1)%float with 2%float.
  rewrite wrap_in_range
    by (unfold Int64.in_range, Int64.min_int, Int64.max_int; lia).
  rewrite HPow.
  assert (Hp : 0 < 2 ^ (n - 1) < 2 ^ 63).
  { split; [apply pow2_pos; lia|]. apply Z.pow_lt_mono_r; lia. }
  destruct (of_int_exact (Delay tr) (Delay tr) 0) as (mx & ex & Ex & Vx);
    try lia.
  destruct (of_int_exact (2 ^ (n - 1)) 1 (n - 1)) as (my & ey & Ey & Vy);
    try lia.
  destruct (mul_exact _ _ mx ex my ey (Delay tr) (2 ^ (n - 1))
              (Delay tr) (n - 1) Ex Ey ltac:(lia) Hp Vx Vy
              ltac:(lia) ltac:(lia) eq_refl) as (m & e & Em & He & Vm).
  apply (to_int_exact _ _ m e); trivial.
  pose proof (pow2_pos (n - 1) ltac:(lia)). nia.
Qed.

(** Exponential backoff.  With Scale 1 and no jitter, the delay before
    attempt n+1 is Delay * 2^(n-1), capped at MaxDelay when there is a
    ceiling: the delay doubles after each attempt, as the comment of the
    Scale field says.  This holds as long as Delay is below 2^53
    nanoseconds and the doubled delay fits in an int64, and for a
    [math.Pow] that is exact on the powers of 2, as Go's is. *)
Theorem delay_doubles_with_scale_one env tr n k :
  Scale tr = 1%float -> Jitter tr <= 0 ->
  0 < Delay tr < 2 ^ 53 -> 1 <= n <= 63 ->
  Delay tr * 2 ^ (n - 1) <= Int64.max_int ->
  math_Pow env 2 (F64.of_int (n - 1)) = F64.of_int (2 ^ (n - 1)) ->
  delay_of env tr n k =
  if MaxDelay tr >? 0 then Z.min (Delay tr * 2 ^ (n - 1)) (MaxDelay tr)
  else Delay tr * 2 ^ (n - 1).
Proof.
  intros HS HJ HD Hn Hfit HPow.
  unfold delay_of. rewrite calcDelay_steps. cbv zeta.
  rewrite (scaled_delay_doubles env tr n HS HD Hn Hfit HPow).
  set (s := Delay tr * 2 ^ (n - 1)).
  assert (Hs : 0 < s) by (unfold s; pose proof (pow2_pos (n - 1) ltac:(lia)); nia).
  set (capped := if (MaxDelay tr >? 0) && (s >? MaxDelay tr)
                 then MaxDelay tr else s).
  assert (Ec : capped = if MaxDelay tr >? 0 then Z.min s (MaxDelay tr) else s).
  { unfold capped.
    destruct (Z.gtb_spec (MaxDelay tr) 0), (Z.gtb_spec s (MaxDelay tr));
      simpl; lia. }
  assert (Hc : 0 < capped).
  { rewrite Ec. destruct (Z.gtb_spec (MaxDelay tr) 0); lia. }
  destruct (Z.gtb_spec (if Jitter tr >? capped then capped else Jitter tr) 0)
    as [Hpos|Hneg]; simpl.
  - destruct (Z.gtb_spec (Jitter tr) capped); lia.
  - exact Ec.
Qed.

End Doubling.

(** * More about calcDelay *)

Section DelayProperties.

Context {error : Type}.

Implicit Types (tr : Tryer error) (env : Env).

(** The delay stays within the clamped jitter of the delay before jitter:
    when the scaled delay is between 0 and 2^62 nanoseconds, MaxDelay is
    not negative and Jitter is below 2^53 nanoseconds, calcDelay returns a
    delay that differs from the capped delay by at most min(Jitter, capped
    delay), and by nothing when that is not positive. *)
Theorem delay_within_clamped_jitter env tr n k :
  0 <= scaled_delay env tr n <= 2 ^ 62 ->
  0 <= MaxDelay tr -> Jitter tr < 2 ^ 53 ->
  (0 <=? drawn env tr k)%float = true -> (drawn env tr k <? 1)%float = true ->
  let capped := if MaxDelay tr >? 0
                then Z.min (scaled_delay env tr n) (MaxDelay tr)
                else scaled_delay env tr n in
  let jitter := Z.max 0 (Z.min (Jitter tr) capped) in
  capped - jitter <= delay_of env tr n k <= capped + jitter /\
  (0 < jitter -> delay_of env tr n k < capped + jitter).
Proof.
  intros Hs HM HJ H0 H1 capped jitter.
  unfold delay_of. rewrite calcDelay_steps. cbv zeta.
  replace (if (MaxDelay tr >? 0) && (scaled_delay env tr n >? MaxDelay tr)
           then MaxDelay tr else scaled_delay env tr n) with capped.
  2:{ unfold capped.
      destruct (Z.gtb_spec (MaxDelay tr) 0),
               (Z.gtb_spec (scaled_delay env tr n) (MaxDelay tr));
        simpl; lia. }
  assert (Hc : 0 <= capped <= 2 ^ 62).
  { unfold capped. destruct (Z.gtb_spec (MaxDelay tr) 0); lia. }
  set (j := if Jitter tr >? capped then capped else Jitter tr).
  assert (Hj : j = Z.min (Jitter tr) capped).
  { unfold j. destruct (Z.gtb_spec (Jitter tr) capped); lia. }
  destruct (Z.gtb_spec j 0) as [Hpos|Hneg]; simpl.
  - assert (Hjm : 0 < j <= Int64.max_int) by (unfold Int64.max_int; lia).
    destruct (signed_jitter_range (out_of_range env) j (drawn env tr k)
                Hjm H0 H1) as [Hz Hlow].
    fold (signed_jitter env j (drawn env tr k)) in Hz, Hlow.
    specialize (Hlow ltac:(lia)).
    rewrite wrap_in_range;
      unfold Int64.in_range, Int64.min_int, Int64.max_int, jitter in *; lia.
  - unfold jitter. lia.
Qed.

End DelayProperties.

(** * The package's tests, replayed on the model *)

Module Replay.

Import Sample Tests.
Import String.
Local Open Scope list_scope.
Local Open Scope Z_scope.

Example TestTryerMax_0 :
  Try env 10 tryer_max (succeed_on 0) = Some (Nil, [EvCall 0]).
Proof. reflexivity. Qed.

Example TestTryerMax_2 :
  Try env 10 tryer_max (succeed_on 2) =
  Some (Nil, [EvCall 0; EvAfter 0; EvCall 1; EvAfter 0; EvCall 2]).
Proof. reflexivity. Qed.

Example TestTryerMax_3 :
  Try env 10 tryer_max (succeed_on 3) =
  Some (MaxTriesError testErr,
        [EvCall 0; EvAfter 0; EvCall 1; EvAfter 0; EvCall 2]).
Proof. reflexivity. Qed.

Example TestTryerUnretryable :
  Try env 10 tryer_unretryable run_unretryable =
  Some (UnretryableError unretriableErr,
        [EvCall 0; EvIsRetryable retriableErr; EvAfter 0;
         EvCall 1; EvIsRetryable unretriableErr]).
Proof. reflexivity. Qed.

Example TestCancel :
  Try env 10 tryer_cancel run_cancel =
  Some (ContextError Canceled,
        [EvCall 0; EvAfter 0; EvCall 1; EvAfter 0; EvCall 2; EvAfter 0]).
Proof. reflexivity. Qed.

Example TestCalcDelay :
  delay_of env tryer_delay 1 0 = (100 - 40) * ms /\
  delay_of env tryer_delay 2 1 = (150 + 40) * ms /\
  delay_of env tryer_delay 3 2 = (225 - 30) * ms.
Proof. repeat split; vm_compute; reflexivity. Qed.

(** With a ceiling, doubling and no attempt limit, the scaled delay of the
    38th wait is 100ms * 2^37, which does not fit in 64 bits; where the
    conversion then yields the smallest int64 (amd64), the ceiling does
    not apply and the delay is negative. *)
Example backoff_overflow :
  delay_of env tryer_backoff 37 0 = 10000 * ms /\
  delay_of env tryer_backoff 38 0 = Int64.min_int.
Proof. split; vm_compute; reflexivity. Qed.

(** The jitter is added after the ceiling: 80ms + 40ms. *)
Example ceiling_exceeded :
  delay_of env tryer_ceiling 1 0 = 120 * ms.
Proof. vm_compute. reflexivity. Qed.

(** The select statement at the sample waits: both signals have arrived
    when it looks and the runtime's choice decides ([late_cancel],
    [early_cancel]); it is waiting when the timer delivers
    ([timer_in_time]); nothing ever arrives ([no_signal]). *)
Example select_at_sample_waits :
  go_select late_cancel = CtxDone Canceled /\
  go_select early_cancel = TimerFired /\
  go_select timer_in_time = TimerFired /\
  go_select timer_only = TimerFired /\
  go_select no_signal = Blocked.
Proof. repeat split. Qed.

(** ExampleTryer with a random source that always returns 0.5: the jitter
    is zero and the waits are 100ms and 150ms. *)
Example ExampleTryer :
  Try env 10 tryer_example run_example =
  Some (Nil, [EvCall 0; EvRand; EvAfter (100 * ms); EvCall 1; EvRand;
              EvAfter (150 * ms); EvCall 2]).
Proof. vm_compute. reflexivity. Qed.

End Replay.

(** * The theorems at the tests' inputs *)

Section Instances.

Import Sample Tests.

Ltac range := unfold Int64.max_int, Int64.min_int, Int64.in_range; simpl; lia.

Lemma C1_witness :
  exists e t,
    f always_fails (Z.max 3 1 - 1) = Some e /\
    calls t = attempts (Z.to_nat (Z.max 3 1)) /\
    Z.of_nat (length (calls t)) = Z.max 3 1 /\
    forall fuel, (Z.to_nat (Z.max 3 1) <= fuel)%nat ->
      Try env fuel tryer_max always_fails = Some (MaxTriesError e, t) /\
      Unwrap (MaxTriesError e) = Some e.
Proof.
  apply (C1_always_failing_spends_budget env tryer_max always_fails 3).
  - reflexivity.
  - range.
  - intros j _. exists testErr. split; reflexivity.
  - reflexivity.
Defined.

Lemma C2_witness :
  exists t,
    calls t = attempts 3 /\
    length (calls t) = 3%nat /\
    (2%nat = 0%nat -> t = [EvCall 0]) /\
    forall fuel, (2 < fuel)%nat ->
      Try env fuel tryer_max (succeed_on 2) = Some (Nil, t).
Proof.
  apply (C2_success_on_attempt env tryer_max (succeed_on 2) 2).
  - range.
  - intros j Hj. exists testErr.
    destruct j as [|[|j]]; [repeat split .. | lia].
  - reflexivity.
  - right. right. simpl. lia.
Defined.

Lemma C3_witness :
  exists pre,
    calls pre = attempts 1 /\
    length (calls (pre ++ [EvCall 1; EvIsRetryable unretriableErr])) = 2%nat /\
    forall fuel, (1 < fuel)%nat ->
      Try env fuel tryer_unretryable run_unretryable =
      Some (UnretryableError unretriableErr,
            pre ++ [EvCall 1; EvIsRetryable unretriableErr]) /\
      Unwrap (UnretryableError unretriableErr) = Some unretriableErr.
Proof.
  apply (C3_rejected_error_stops env tryer_unretryable run_unretryable
           (String.eqb retriableErr) 1 unretriableErr).
  - range.
  - range.
  - reflexivity.
  - intros j Hj. exists retriableErr.
    destruct j as [|j]; [repeat split | lia].
  - reflexivity.
  - reflexivity.
  - right. simpl. lia.
Defined.


Lemma C5_witness :
  (calcDelay env tryer_delay 1 0%nat = (60 * 1000000, 1%nat, [EvRand]) /\
   calcDelay env tryer_delay 2 1%nat = (190 * 1000000, 2%nat, [EvRand]) /\
   calcDelay env tryer_delay 3 2%nat = (195 * 1000000, 3%nat, [EvRand])) /\
  (forall (tr' : Tryer String.string) n k k',
     Delay tr' = Delay tryer_delay -> Jitter tr' = Jitter tryer_delay ->
     Scale tr' = Scale tryer_delay -> MaxDelay tr' = MaxDelay tryer_delay ->
     drawn env tr' k' = drawn env tryer_delay k ->
     delay_of env tr' n k' = delay_of env tryer_delay n k).
Proof.
  apply (C5_calcDelay_test_values env tryer_delay); reflexivity.
Defined.

Lemma C8_witness :
  (forall e, ContextError Canceled <> MaxTriesError e) /\
  (ContextError Canceled = Nil \/
   (exists e, ContextError Canceled = UnretryableError e) \/
   (exists cause, ContextError Canceled = ContextError cause)).
Proof.
  apply (C8_unlimited_never_MaxTries env tryer_cancel run_cancel 10
           (ContextError Canceled)
           [EvCall 0; EvAfter 0; EvCall 1; EvAfter 0; EvCall 2; EvAfter 0]).
  - simpl. lia.
  - reflexivity.
Defined.

Lemma C9_witness :
  exists t,
    consulted t = errors_of run_unretryable (attempts (2 - 1)) /\
    ~ In unretriableErr (consulted t) /\
    (Max tryer_two <= 1 -> consulted t = []) /\
    (exists pre, t = pre ++ [EvCall (Z.of_nat 2 - 1)]) /\
    forall fuel, (2 <= fuel)%nat ->
      Try env fuel tryer_two run_unretryable =
      Some (MaxTriesError unretriableErr, t).
Proof.
  apply (C9_budget_checked_before_predicate env tryer_two run_unretryable
           (String.eqb retriableErr) 2 unretriableErr).
  - reflexivity.
  - range.
  - reflexivity.
  - intros j Hj. exists retriableErr.
    destruct j as [|j]; [repeat split | lia].
  - reflexivity.
  - reflexivity.
Defined.

Lemma C7_witness :
  let capped := Z.min (scaled_delay env tryer_ceiling 1) (MaxDelay tryer_ceiling) in
  let jitter := Z.min (Jitter tryer_ceiling) capped in
  delay_of env tryer_ceiling 1 0 =
    (if 0 <? jitter
     then Int64.wrap (capped + signed_jitter env jitter (drawn env tryer_ceiling 0))
     else capped) /\
  (MaxDelay tryer_ceiling < delay_of env tryer_ceiling 1 0 ->
   delay_of env tryer_ceiling 1 0 - MaxDelay tryer_ceiling <
   Z.min (Jitter tryer_ceiling) (MaxDelay tryer_ceiling)).
Proof.
  apply (C7_ceiling_before_jitter env tryer_ceiling 1 0).
  - unfold Int64.max_int; simpl; lia.
  - reflexivity.
  - reflexivity.
Defined.

Lemma delay_nonneg_witness : 0 <= delay_of env tryer_delay 1 0.
Proof.
  apply (delay_nonneg_when_jitter_exact env tryer_delay 1 0).
  - vm_compute. split; discriminate.
  - simpl. lia.
  - vm_compute. reflexivity.
  - reflexivity.
  - reflexivity.
Defined.

(** ** The properties of every run, at the tests' and the example's runs *)

Lemma Try_returns_within_budget_witness :
  exists r t,
    Z.of_nat (length (calls t)) <= Z.max (Max tryer_example) 1 /\
    forall fuel, (Z.to_nat (Z.max (Max tryer_example) 1) <= fuel)%nat ->
      Try env fuel tryer_example run_example = Some (r, t).
Proof.
  apply (Try_returns_within_budget env tryer_example run_example).
  - range.
  - intros n d. discriminate.
Defined.

Lemma Try_attempt_numbers_witness :
  let t : list (event String.string) :=
    [EvCall 0; EvRand; EvAfter (100 * ms); EvCall 1; EvRand;
     EvAfter (150 * ms); EvCall 2] in
  (1 <= length (calls t))%nat /\
  hd_error t = Some (EvCall 0) /\
  calls t = map nth_attempt (seq 0 (length (calls t))) /\
  (Z.of_nat (length (calls t)) <= 2 ^ 63 ->
   calls t = attempts (length (calls t))).
Proof.
  intros t.
  apply (Try_attempt_numbers env tryer_example run_example 10 Nil t).
  vm_compute. reflexivity.
Defined.

Lemma Try_nil_iff_last_call_succeeded_witness :
  let t : list (event String.string) :=
    [EvCall 0; EvRand; EvAfter (100 * ms); EvCall 1; EvRand;
     EvAfter (150 * ms); EvCall 2] in
  @Nil String.string = Nil <-> f run_example (last (calls t) 0) = None.
Proof.
  intros t.
  apply (Try_nil_iff_last_call_succeeded env tryer_example run_example 10 Nil t).
  vm_compute. reflexivity.
Defined.

Lemma Try_wraps_last_error_witness :
  let t : list (event String.string) :=
    [EvCall 0; EvAfter 0; EvCall 1; EvAfter 0; EvCall 2] in
  Unwrap (MaxTriesError testErr) = f (succeed_on 3) (last (calls t) 0).
Proof.
  intros t.
  apply (Try_wraps_last_error env tryer_max (succeed_on 3) 10
           (MaxTriesError testErr) t).
  - reflexivity.
  - reflexivity.
Defined.

Lemma Try_ContextError_from_last_wait_witness :
  let t : list (event String.string) :=
    [EvCall 0; EvAfter 0; EvCall 1; EvAfter 0; EvCall 2; EvAfter 0] in
  select_ run_cancel (last (calls t) 0) (last (afters t) 0) = CtxDone Canceled /\
  exists e, f run_cancel (last (calls t) 0) = Some e /\
            accepts tryer_cancel e = true.
Proof.
  intros t.
  apply (Try_ContextError_from_last_wait env tryer_cancel run_cancel 10
           Canceled t).
  reflexivity.
Defined.

Lemma Try_MaxTries_only_when_spent_witness :
  let t : list (event String.string) :=
    [EvCall 0; EvRand; EvAfter (100 * ms); EvCall 1; EvRand;
     EvAfter (150 * ms); EvCall 2; EvRand; EvAfter (225 * ms); EvCall 3;
     EvRand; EvAfter 337500000; EvCall 4] in
  0 <= Max tryer_example /\
  Z.of_nat (length (calls t)) = Z.max (Max tryer_example) 1.
Proof.
  intros t.
  apply (Try_MaxTries_only_when_spent env tryer_example always_fails 10
           testErr t).
  - vm_compute. reflexivity.
  - range.
Defined.

Lemma Try_Unretryable_only_when_rejected_witness :
  let t : list (event String.string) :=
    [EvCall 0; EvIsRetryable retriableErr; EvAfter 0;
     EvCall 1; EvIsRetryable unretriableErr] in
  exists p, IsRetryable tryer_unretryable = Some p /\
            p unretriableErr = false /\
            f run_unretryable (last (calls t) 0) = Some unretriableErr /\
            last t (EvCall 0) = EvIsRetryable unretriableErr.
Proof.
  intros t.
  apply (Try_Unretryable_only_when_rejected env tryer_unretryable
           run_unretryable 10 unretriableErr t).
  reflexivity.
Defined.

Lemma Try_earlier_calls_failed_witness :
  let t : list (event String.string) :=
    [EvCall 0; EvIsRetryable retriableErr; EvAfter 0;
     EvCall 1; EvIsRetryable unretriableErr] in
  exists e, f run_unretryable 0 = Some e /\
            accepts tryer_unretryable e = true /\
            (Max tryer_unretryable < 0 \/
             Int64.wrap (0 + 1) < Max tryer_unretryable).
Proof.
  intros t.
  apply (Try_earlier_calls_failed env tryer_unretryable run_unretryable 10
           (UnretryableError unretriableErr) t).
  - reflexivity.
  - simpl. left. reflexivity.
Defined.

Lemma Try_timer_requests_witness :
  let t : list (event String.string) :=
    [EvCall 0; EvAfter 0; EvCall 1; EvAfter 0; EvCall 2; EvAfter 0] in
  (length (afters t) +
   (if is_ContextError (ContextError Canceled) then 0 else 1) =
   length (calls t))%nat.
Proof.
  intros t.
  apply (Try_timer_requests env tryer_cancel run_cancel 10
           (ContextError Canceled) t).
  reflexivity.
Defined.

Lemma Try_delays_are_calcDelay_witness :
  let t : list (event String.string) :=
    [EvCall 0; EvRand; EvAfter (100 * ms); EvCall 1; EvRand;
     EvAfter (150 * ms); EvCall 2; EvRand; EvAfter (225 * ms); EvCall 3;
     EvRand; EvAfter 337500000; EvCall 4] in
  afters t = expected_delays env tryer_example (length (afters t)) 1 0.
Proof.
  intros t.
  apply (Try_delays_are_calcDelay env tryer_example always_fails 10
           (MaxTriesError testErr) t).
  vm_compute. reflexivity.
Defined.

Lemma Try_random_draws_witness :
  let t : list (event String.string) :=
    [EvCall 0; EvRand; EvAfter (100 * ms); EvCall 1; EvRand;
     EvAfter (150 * ms); EvCall 2] in
  (draws t <= length (afters t))%nat /\
  (Jitter tryer_example <= 0 -> draws t = 0%nat).
Proof.
  intros t.
  apply (Try_random_draws env tryer_example run_example 10 Nil t).
  vm_compute. reflexivity.
Defined.

Lemma Try_predicate_calls_witness :
  let t : list (event String.string) :=
    [EvCall 0; EvIsRetryable retriableErr; EvAfter 0; EvCall 1] in
  consulted t =
  errors_of run_unretryable
    (if is_MaxTries (MaxTriesError unretriableErr)
     then removelast (calls t) else calls t).
Proof.
  intros t.
  apply (Try_predicate_calls env tryer_two run_unretryable 10
           (MaxTriesError unretriableErr) t (String.eqb retriableErr)).
  - reflexivity.
  - reflexivity.
Defined.

Lemma Try_without_limit_keeps_trying_witness :
  Try env 50 tryer_cancel always_fails = None.
Proof.
  apply (Try_without_limit_keeps_trying env tryer_cancel always_fails).
  - simpl. lia.
  - intros j. exists testErr. split; reflexivity.
  - reflexivity.
Defined.

(** ** The properties of calcDelay, at the tests' inputs *)

Lemma delay_within_clamped_jitter_witness :
  let capped :=
    if MaxDelay tryer_delay >? 0
    then Z.min (scaled_delay env tryer_delay 1) (MaxDelay tryer_delay)
    else scaled_delay env tryer_delay 1 in
  let jitter := Z.max 0 (Z.min (Jitter tryer_delay) capped) in
  capped - jitter <= delay_of env tryer_delay 1 0 <= capped + jitter /\
  (0 < jitter -> delay_of env tryer_delay 1 0 < capped + jitter).
Proof.
  apply (delay_within_clamped_jitter env tryer_delay 1 0).
  - vm_compute. split; discriminate.
  - simpl. lia.
  - vm_compute. reflexivity.
  - reflexivity.
  - reflexivity.
Defined.

Lemma delay_doubles_with_scale_one_witness :
  delay_of env tryer_backoff 5 0 =
  if MaxDelay tryer_backoff >? 0
  then Z.min (Delay tryer_backoff * 2 ^ (5 - 1)) (MaxDelay tryer_backoff)
  else Delay tryer_backoff * 2 ^ (5 - 1).
Proof.
  apply (delay_doubles_with_scale_one env tryer_backoff 5 0).
  - reflexivity.
  - simpl. lia.
  - vm_compute. split; reflexivity.
  - lia.
  - vm_compute. discriminate.
  - vm_compute. reflexivity.
Defined.

(** ** The wait between two attempts, at concrete arrival times *)

(** C10 as stated does not hold.  In [late_cancel] the timer fires at time
    0 and the cancellation arrives strictly later, at time 1, yet Try
    returns ContextError for that wait, because both signals had arrived
    when the select statement looked at its channels and the runtime may
    choose either.  In [early_cancel] the cancellation arrives first, yet
    the wait ends with the timer and Try goes on to spend its budget. *)
Lemma C10_counterexample :
  (fires_at late_cancel = Some 0 /\
   done_at late_cancel = Some (1, Canceled) /\
   0 < 1 /\
   Try env 10 tryer_cancel (timed_run fails (fun _ _ => late_cancel)) =
   Some (ContextError Canceled, [EvCall 0; EvAfter 0])) /\
  (done_at early_cancel = Some (0, Canceled) /\
   fires_at early_cancel = Some 1 /\
   0 < 1 /\
   Try env 10 tryer_max (timed_run fails (fun _ _ => early_cancel)) =
   Some (MaxTriesError testErr,
         [EvCall 0; EvAfter 0; EvCall 1; EvAfter 0; EvCall 2])).
Proof.
  repeat split; reflexivity.
Qed.

Lemma C10_witness :
  exists pre k',
    calls pre = attempts 2 /\
    (1 < 2 -> entered timer_in_time < 2 ->
     goes_on env tryer_cancel (timed_run fails waits_timer_first) 1 pre k') /\
    (2 < 1 -> entered timer_in_time < 1 ->
     cancelled_in_wait env tryer_cancel (timed_run fails waits_timer_first)
       1 pre Canceled) /\
    (2 <= entered timer_in_time -> 1 <= entered timer_in_time ->
     if pick_done timer_in_time
     then cancelled_in_wait env tryer_cancel
            (timed_run fails waits_timer_first) 1 pre Canceled
     else goes_on env tryer_cancel (timed_run fails waits_timer_first)
            1 pre k').
Proof.
  apply (C10_first_arrival_decides_once_waiting env tryer_cancel fails
           waits_timer_first 1 testErr timer_in_time 2 Canceled 1).
  - range.
  - range.
  - intros j Hj. exists testErr.
    destruct j as [|j]; [repeat split|lia].
  - reflexivity.
  - reflexivity.
  - left. simpl. lia.
  - reflexivity.
  - reflexivity.
  - reflexivity.
Defined.

Lemma Try_ContextError_not_spurious_witness :
  let tc : list (event String.string) := [EvCall 0; EvAfter 0] in
  let w := late_cancel in
  exists c, done_at w = Some (c, Canceled) /\
    forall t, fires_at w = Some t -> t < c ->
      c <= entered w /\ pick_done w = true.
Proof.
  intros tc.
  apply (Try_ContextError_not_spurious env tryer_cancel fails
           (fun _ _ => late_cancel) 10 Canceled tc).
  reflexivity.
Defined.

Lemma Try_hangs_in_blocked_wait_witness :
  Try env 50 tryer_cancel (timed_run fails (fun _ _ => no_signal)) = None.
Proof.
  apply (Try_hangs_in_blocked_wait env tryer_cancel
           (timed_run fails (fun _ _ => no_signal)) 0 testErr).
  - range.
  - range.
  - intros j Hj. lia.
  - reflexivity.
  - reflexivity.
  - left. simpl. lia.
  - reflexivity.
Defined.

End Instances.
